(** * Cycle detection for submitted pipelines (backend/main.py)

    A shallow embedding of [check_is_dag], its inner closure [has_cycle]
    and the request handler [parse_pipeline], followed by the properties
    the specification states about them.

    Modelling choices.
    - Python dictionaries and sets are stdpp's [gmap] and [gset] over
      [string] keys.
    - A Python exception is a value of [exn]; a call ends in [Ret] or in
      [Raise].
    - [has_cycle] is a recursive closure over the two mutable sets
      [visited] and [rec_stack]; the sets are threaded explicitly as a
      [dfs_state].
    - The interpreter caps the nesting of calls: a call that would exceed
      [sys.getrecursionlimit()] raises [RecursionError], and nothing in
      the module changes the limit.  The argument [depth] of [has_cycle],
      [check_is_dag] and [parse_pipeline] is the number of calls of
      [has_cycle] that may still be nested, that is the limit less the
      frames already on the stack; a call with no depth left raises
      [RecursionError].  With the default limit of 1000 this number is
      below 1000.
    - Every run also yields the list of its steps (each entry to
      [has_cycle] and each mutation of a set, with the state right after
      it), so that properties "throughout the execution" can be stated. *)

From Stdlib Require Import Lia.
From stdpp Require Import base option list strings gmap sets fin_sets relations.

(** ** Data model (lines 16-31) *)

(** Payload fields are opaque to the detector. *)
#[local] Set Warnings "-register-all".
Inductive json :=
| JNull
| JBool (b : bool)
| JNumber (mantissa exponent : Z)
| JString (s : string)
| JArray (items : list json)
| JObject (fields : list (string * json)).
#[local] Set Warnings "register-all".

Module Node.
Record t := mk {
  id : string;
  type : string;
  position : json;
  data : json
}.
End Node.

Module Edge.
Record t := mk {
  id : string;
  source : string;
  target : string;
  sourceHandle : option string;
  targetHandle : option string
}.
End Edge.

Module Pipeline.
Record t := mk {
  nodes : list Node.t;
  edges : list Edge.t
}.
End Pipeline.

(** The dictionary returned by [parse_pipeline]. *)
Record response := Response {
  num_nodes : nat;
  num_edges : nat;
  is_dag : bool
}.

(** ** Outcomes of a call *)

Inductive exn :=
| KeyError (key : string)
| RecursionError.

Inductive outcome (A : Type) :=
| Ret (a : A)
| Raise (e : exn).
Arguments Ret {A} a.
Arguments Raise {A} e.

Definition outcome_map {A B} (f : A → B) (o : outcome A) : outcome B :=
  match o with
  | Ret a => Ret (f a)
  | Raise e => Raise e
  end.

(** What the caller receives when the call returns normally. *)
Definition returned {A} (o : outcome A) : option A :=
  match o with
  | Ret a => Some a
  | _ => None
  end.

(** ** The adjacency map (lines 63-65) *)

(** [{node.id: [] for node in nodes}]: a later duplicate id overwrites the
    earlier entry with a new empty list. *)
Definition init_graph (nodes : list Node.t) : gmap string (list string) :=
  foldl (λ g node, <[Node.id node := []]> g) ∅ nodes.

(** [for edge in edges: graph[edge.source].append(edge.target)]: the
    subscript raises [KeyError] when the source has no entry. *)
Fixpoint add_edges (edges : list Edge.t) (graph : gmap string (list string))
  : outcome (gmap string (list string)) :=
  match edges with
  | [] => Ret graph
  | edge :: rest =>
      match graph !! Edge.source edge with
      | None => Raise (KeyError (Edge.source edge))
      | Some targets =>
          add_edges rest (<[Edge.source edge := targets ++ [Edge.target edge]]> graph)
      end
  end.

Definition build_graph (nodes : list Node.t) (edges : list Edge.t)
  : outcome (gmap string (list string)) :=
  add_edges edges (init_graph nodes).

(** [graph.get(node_id, [])] *)
Definition neighbors (graph : gmap string (list string)) (node_id : string)
  : list string :=
  default [] (graph !! node_id).

(** ** The traversal state (lines 67-68) and the steps of a run *)

Record dfs_state := State {
  visited : gset string;
  rec_stack : gset string
}.

Definition fresh : dfs_state := State ∅ ∅.

Inductive op :=
| Enter (node_id : string)
| VisitedAdd (node_id : string)
| RecStackAdd (node_id : string)
| RecStackRemove (node_id : string).

Record step := Step {
  what : op;
  after : dfs_state
}.

(** Result, final state and steps of a run. *)
Definition run (A : Type) : Type := outcome A * dfs_state * list step.

Definition visited_add (node_id : string) (st : dfs_state) : dfs_state :=
  State ({[node_id]} ∪ visited st) (rec_stack st).

Definition rec_stack_add (node_id : string) (st : dfs_state) : dfs_state :=
  State (visited st) ({[node_id]} ∪ rec_stack st).

(** [set.remove] raises [KeyError] on a missing element. *)
Definition rec_stack_remove (node_id : string) (st : dfs_state)
  : option dfs_state :=
  if decide (node_id ∈ rec_stack st)
  then Some (State (visited st) (rec_stack st ∖ {[node_id]}))
  else None.

(** ** [has_cycle] (lines 70-83) *)

(** The [for neighbor in ...] loop of lines 75-80; [rec] is the recursive
    call.  [Ret true] is one of the two [return True]; [Ret false] means
    the loop ran to its end. *)
Fixpoint for_neighbors (rec : string → dfs_state → run bool)
    (ns : list string) (st : dfs_state) : run bool :=
  match ns with
  | [] => (Ret false, st, [])
  | neighbor :: rest =>
      if decide (neighbor ∉ visited st) then
        let '(r, st1, log1) := rec neighbor st in
        match r with
        | Ret false =>
            let '(r2, st2, log2) := for_neighbors rec rest st1 in
            (r2, st2, log1 ++ log2)
        | _ => (r, st1, log1)
        end
      else if decide (neighbor ∈ rec_stack st) then (Ret true, st, [])
      else for_neighbors rec rest st
  end.

Fixpoint has_cycle (depth : nat) (graph : gmap string (list string))
    (node_id : string) (st : dfs_state) : run bool :=
  match depth with
  | O => (Raise RecursionError, st, [])
  | S depth' =>
      let st1 := visited_add node_id st in
      let st2 := rec_stack_add node_id st1 in
      let entry :=
        [Step (Enter node_id) st; Step (VisitedAdd node_id) st1;
         Step (RecStackAdd node_id) st2] in
      let '(r, st3, log) :=
        for_neighbors (has_cycle depth' graph) (neighbors graph node_id) st2 in
      match r with
      | Ret false =>
          match rec_stack_remove node_id st3 with
          | Some st4 =>
              (Ret false, st4,
               entry ++ log ++ [Step (RecStackRemove node_id) st4])
          | None => (Raise (KeyError node_id), st3, entry ++ log)
          end
      | _ => (r, st3, entry ++ log)
      end
  end.

(** ** [check_is_dag] (lines 57-90) *)

(** The [for node in nodes] loop of lines 85-88; the boolean is the value
    [check_is_dag] returns. *)
Fixpoint for_nodes (depth : nat) (graph : gmap string (list string))
    (nodes : list Node.t) (st : dfs_state) : run bool :=
  match nodes with
  | [] => (Ret true, st, [])
  | node :: rest =>
      if decide (Node.id node ∉ visited st) then
        let '(r, st1, log1) := has_cycle depth graph (Node.id node) st in
        match r with
        | Ret true => (Ret false, st1, log1)
        | Ret false =>
            let '(r2, st2, log2) := for_nodes depth graph rest st1 in
            (r2, st2, log1 ++ log2)
        | _ => (r, st1, log1)
        end
      else for_nodes depth graph rest st
  end.

Definition check_is_dag_run (depth : nat) (nodes : list Node.t)
    (edges : list Edge.t) : run bool :=
  match build_graph nodes edges with
  | Ret graph => for_nodes depth graph nodes fresh
  | Raise e => (Raise e, fresh, [])
  end.

(** [depth]: the number of calls of [has_cycle] the interpreter lets nest
    inside this call of [check_is_dag]. *)
Definition check_is_dag (depth : nat) (nodes : list Node.t)
    (edges : list Edge.t) : outcome bool :=
  (check_is_dag_run depth nodes edges).1.1.

(** ** [parse_pipeline] (lines 37-55) *)

Definition parse_pipeline (depth : nat) (pipeline : Pipeline.t)
  : outcome response :=
  let num_nodes := length (Pipeline.nodes pipeline) in
  let num_edges := length (Pipeline.edges pipeline) in
  match check_is_dag depth (Pipeline.nodes pipeline) (Pipeline.edges pipeline)
  with
  | Ret is_dag => Ret (Response num_nodes num_edges is_dag)
  | Raise e => Raise e
  end.

(** ** Inputs used in the examples *)

Definition node (i : string) : Node.t := Node.mk i "customInput" JNull JNull.
Definition edge (s t : string) : Edge.t :=
  Edge.mk (s +:+ "->" +:+ t) s t None None.

(** A chain of [m] edges over [m + 1] nodes with ids of their own:
    [name 0 -> name 1 -> ... -> name m]. *)
Fixpoint name (i : nat) : string :=
  match i with
  | O => "n"
  | S j => "v" +:+ name j
  end.

Definition chain_nodes (m : nat) : list Node.t :=
  (λ i, node (name i)) <$> seq 0 (S m).

Definition chain_edges (m : nat) : list Edge.t :=
  (λ i, edge (name i) (name (S i))) <$> seq 0 m.

(** ** The graph the traversal runs on *)

(** [arc graph u v]: [v] is listed among the neighbours of [u]. *)
Definition arc (graph : gmap string (list string)) (u v : string) : Prop :=
  v ∈ neighbors graph u.

(** Ids that are visited and no longer on the recursion stack. *)
Definition finished (st : dfs_state) : gset string :=
  visited st ∖ rec_stack st.

(** Every id on the recursion stack reaches the node being explored. *)
Definition on_path (graph : gmap string (list string)) (st : dfs_state)
    (n : string) : Prop :=
  ∀ s, s ∈ rec_stack st → rtc (arc graph) s n.

(** The state a run ends in is the state after its last step. *)
Definition last_state (st : dfs_state) (log : list step) : dfs_state :=
  foldl (λ _ s, after s) st log.

(** [visited] never shrinks from one step to the next. *)
Fixpoint grows (st : dfs_state) (log : list step) : Prop :=
  match log with
  | [] => True
  | s :: log' => visited st ⊆ visited (after s) ∧ grows (after s) log'
  end.

(** The ids [has_cycle] was called on, in the order of the calls. *)
Definition calls (log : list step) : list string :=
  omap (λ s, match what s with Enter n => Some n | _ => None end) log.

(** A call of [has_cycle] is made on an id that is not visited. *)
Definition enter_unvisited (s : step) : Prop :=
  ∀ n, what s = Enter n → n ∉ visited (after s).

(** ** The graph induced by the supplied edges *)

(** The ids of the supplied nodes. *)
Definition node_ids (nodes : list Node.t) : gset string :=
  list_to_set (Node.id <$> nodes).

(** [edge_rel edges u v]: some supplied edge goes from [u] to [v]. *)
Definition edge_rel (edges : list Edge.t) (u v : string) : Prop :=
  ∃ e, e ∈ edges ∧ Edge.source e = u ∧ Edge.target e = v.

(** A directed cycle is a non-empty path from an id back to itself. *)
Definition has_directed_cycle (edges : list Edge.t) : Prop :=
  ∃ v, tc (edge_rel edges) v v.

Definition acyclic (edges : list Edge.t) : Prop :=
  ∀ v, ¬ tc (edge_rel edges) v v.

(** Every id the traversal can meet: a node id or the target of an edge. *)
Definition universe (nodes : list Node.t) (edges : list Edge.t) : gset string :=
  node_ids nodes ∪ list_to_set (Edge.target <$> edges).

(** The source of every edge is the id of a supplied node. *)
Definition sources_known (nodes : list Node.t) (edges : list Edge.t) : Prop :=
  Forall (λ e, Edge.source e ∈ node_ids nodes) edges.

(** The targets of the edges leaving [u], in the order of the edge list
    and with their repetitions. *)
Definition targets_of (edges : list Edge.t) (u : string) : list string :=
  Edge.target <$> filter (λ e, Edge.source e = u) edges.

(** ** Well-formed inputs *)

(** Every node has an id of its own. *)
Definition unique_ids (nodes : list Node.t) : Prop :=
  NoDup (Node.id <$> nodes).

(** Both ends of every edge are ids of supplied nodes. *)
Definition endpoints_known (nodes : list Node.t) (edges : list Edge.t) : Prop :=
  Forall (λ e, Edge.source e ∈ node_ids nodes ∧ Edge.target e ∈ node_ids nodes)
         edges.

(** ** Runs *)


(** The loop body in the words of the specification (section 4.1, step
    3): a successor that is not visited is explored; a successor that is
    visited and on the stack reports a cycle. *)
Fixpoint for_successors_spec (rec : string → dfs_state → run bool)
    (ns : list string) (st : dfs_state) : run bool :=
  match ns with
  | [] => (Ret false, st, [])
  | successor :: rest =>
      if decide (successor ∉ visited st) then
        let '(r, st1, log1) := rec successor st in
        match r with
        | Ret false =>
            let '(r2, st2, log2) := for_successors_spec rec rest st1 in
            (r2, st2, log1 ++ log2)
        | _ => (r, st1, log1)
        end
      else if decide (successor ∈ visited st ∧ successor ∈ rec_stack st)
      then (Ret true, st, [])
      else for_successors_spec rec rest st
  end.

(** ** The invariant of the traversal and the shape of a run *)

Section invariants.
Context (graph : gmap string (list string)) (U : gset string).

(** The invariant of the traversal: the stack is part of [visited];
    finished ids only lead to finished ids and lie on no cycle. *)
Record inv (st : dfs_state) : Prop := Inv {
  inv_stack : rec_stack st ⊆ visited st;
  inv_univ : visited st ⊆ U;
  inv_closed : ∀ u v, u ∈ finished st → arc graph u v → v ∈ finished st;
  inv_acyclic : ∀ u, u ∈ finished st → ¬ tc (arc graph) u u
}.

(** What a call of [has_cycle] on [n] in state [st] ends in: [true] and
    there is a cycle, or [false], the stack as before and [n] visited. *)
Definition has_cycle_post (n : string) (st : dfs_state) (res : run bool)
  : Prop :=
  match res.1.1 with
  | Ret true => ∃ c, tc (arc graph) c c
  | Ret false =>
      rec_stack res.1.2 = rec_stack st ∧ visited st ⊆ visited res.1.2 ∧
      n ∈ visited res.1.2 ∧ inv res.1.2
  | _ => False
  end.

(** The same for the loop over the neighbours [ns]: when it runs to its
    end, all of [ns] are finished. *)
Definition for_neighbors_post (ns : list string) (st : dfs_state)
    (res : run bool) : Prop :=
  match res.1.1 with
  | Ret true => ∃ c, tc (arc graph) c c
  | Ret false =>
      rec_stack res.1.2 = rec_stack st ∧ visited st ⊆ visited res.1.2 ∧
      inv res.1.2 ∧ ∀ m, m ∈ ns → m ∈ finished res.1.2
  | _ => False
  end.

(** The contract of the recursive call, with depth for every id of [U]
    that is not visited. *)
Definition has_cycle_spec (depth : nat)
    (rec : string → dfs_state → run bool) : Prop :=
  ∀ m st, inv st → on_path graph st m → m ∉ visited st → m ∈ U →
    size (U ∖ visited st) ≤ depth → has_cycle_post m st (rec m st).

(** A state of the run: the stack is part of [visited], which holds ids
    of [U] only. *)
Definition state_ok (st : dfs_state) : Prop :=
  rec_stack st ⊆ visited st ∧ visited st ⊆ U.

(** What holds of the steps [log] of a run from [st] to [st']. *)
Record run_ok (st st' : dfs_state) (log : list step) : Prop := RunOk {
  ok_states : Forall (λ s, state_ok (after s)) log;
  ok_final : st' = last_state st log;
  ok_final_state : state_ok st';
  ok_grows : grows st log;
  ok_enter : Forall enter_unvisited log;
  ok_visited : visited st' = visited st ∪ list_to_set (calls log);
  ok_calls : NoDup (calls log);
  ok_new : ∀ n, n ∈ calls log → n ∉ visited st
}.

(** The contract of the recursive call as to its steps. *)
Definition has_cycle_steps (rec : string → dfs_state → run bool) : Prop :=
  ∀ m st, state_ok st → m ∉ visited st → m ∈ U →
    run_ok st (rec m st).1.2 (rec m st).2.

End invariants.

(** Closed side conditions on concrete inputs are decided by evaluation. *)
Ltac by_evaluation := apply (bool_decide_unpack _); vm_compute; exact I.

(** * Properties *)

(** ** Scenarios of the specification, run on the model at a depth
    within the default limit *)

Example scenario_A :
  parse_pipeline 900 (Pipeline.mk [node "a"; node "b"; node "c"]
                              [edge "a" "b"; edge "b" "c"])
  = Ret (Response 3 2 true).
Proof. vm_compute. reflexivity. Qed.

Example scenario_B :
  parse_pipeline 900 (Pipeline.mk [node "a"; node "b"; node "c"]
                              [edge "a" "b"; edge "b" "c"; edge "c" "a"])
  = Ret (Response 3 3 false).
Proof. vm_compute. reflexivity. Qed.

Example scenario_D :
  parse_pipeline 900 (Pipeline.mk [node "a"] [edge "a" "a"])
  = Ret (Response 1 1 false).
Proof. vm_compute. reflexivity. Qed.

Example scenario_E :
  parse_pipeline 900 (Pipeline.mk [node "a"; node "b"]
                              [edge "a" "b"; edge "a" "b"])
  = Ret (Response 2 2 true).
Proof. vm_compute. reflexivity. Qed.

(** A target that is no node id is looked up with [graph.get] and has no
    neighbours. *)
Example dangling_target :
  check_is_dag 900 [node "a"] [edge "a" "x"] = Ret true.
Proof. vm_compute. reflexivity. Qed.

(** ** Steps of a run *)

Lemma last_state_app st l1 l2 :
  last_state st (l1 ++ l2) = last_state (last_state st l1) l2.
Proof. apply foldl_app. Qed.

Lemma grows_app st l1 l2 :
  grows st l1 → grows (last_state st l1) l2 → grows st (l1 ++ l2).
Proof.
  revert st. induction l1 as [|s l1 IH]; intros st; cbn; [done|].
  intros [Hs Hl1] Hl2. split; [done|]. by apply IH.
Qed.

Lemma grows_last_state st l : grows st l → visited st ⊆ visited (last_state st l).
Proof.
  revert st. induction l as [|s l IH]; intros st; cbn; [done|].
  intros [Hs Hl]. etrans; [done|]. by apply IH.
Qed.

Lemma calls_app l1 l2 : calls (l1 ++ l2) = calls l1 ++ calls l2.
Proof. apply omap_app. Qed.

Section traversal.
Context (graph : gmap string (list string)) (U : gset string).
Hypothesis U_closed : ∀ u v, arc graph u v → v ∈ U.

Lemma finished_closed_rtc st u v :
  inv graph U st → u ∈ finished st → rtc (arc graph) u v → v ∈ finished st.
Proof.
  intros Hinv Hu Hr. induction Hr as [|x y z Hxy _ IH]; [done|].
  apply IH. by eapply inv_closed.
Qed.

Lemma size_unvisited_mono (V V' : gset string) :
  V ⊆ V' → size (U ∖ V') ≤ size (U ∖ V).
Proof. intros. apply subseteq_size. set_solver. Qed.

Lemma for_neighbors_correct depth rec n ns st :
  has_cycle_spec graph U depth rec →
  inv graph U st → on_path graph st n → n ∈ rec_stack st →
  (∀ m, m ∈ ns → arc graph n m) →
  size (U ∖ visited st) ≤ depth →
  for_neighbors_post graph U ns st (for_neighbors rec ns st).
Proof.
  intros Hrec. revert st.
  induction ns as [|m ns IH]; intros st Hinv Hpath Hn Harc Hdepth.
  - unfold for_neighbors_post. cbn. split_and!; [done..|].
    intros m Hm. by apply elem_of_nil in Hm.
  - cbn [for_neighbors].
    assert (Hm : arc graph n m) by (apply Harc; left).
    assert (Hns : ∀ m', m' ∈ ns → arc graph n m')
      by (intros; apply Harc; by right).
    destruct (decide (m ∉ visited st)) as [Hnew|Hold].
    + specialize (Hrec m st Hinv).
      destruct (rec m st) as [[r st1] log1].
      unfold has_cycle_post in Hrec. cbn in Hrec.
      assert (Hpost : match r with
                      | Ret true => ∃ c, tc (arc graph) c c
                      | Ret false =>
                          rec_stack st1 = rec_stack st ∧
                          visited st ⊆ visited st1 ∧
                          m ∈ visited st1 ∧ inv graph U st1
                      | _ => False
                      end).
      { apply Hrec; [|done|by eapply U_closed|done].
        intros s Hs. eapply rtc_r; [by apply Hpath|done]. }
      destruct r as [[]|]; [done| |done..].
      destruct Hpost as (Hst & Hvis & Hmv & Hinv1).
      specialize (IH st1 Hinv1).
      destruct (for_neighbors rec ns st1) as [[r2 st2] log2].
      unfold for_neighbors_post in *. cbn in *.
      assert (Hpost2 : match r2 with
                       | Ret true => ∃ c, tc (arc graph) c c
                       | Ret false =>
                           rec_stack st2 = rec_stack st1 ∧
                           visited st1 ⊆ visited st2 ∧
                           inv graph U st2 ∧ ∀ m', m' ∈ ns → m' ∈ finished st2
                       | _ => False
                       end).
      { apply IH; [| |done|].
        - intros s Hs. apply Hpath. by rewrite <- Hst.
        - by rewrite Hst.
        - etrans; [by apply size_unvisited_mono|done]. }
      destruct r2 as [[]|]; [done| |done..].
      destruct Hpost2 as (Hst2 & Hvis2 & Hinv2 & Hfin).
      split; [congruence|]. split; [set_solver|]. split; [done|].
      intros m' [->|Hm']%elem_of_cons; [|by apply Hfin].
      pose proof (inv_stack _ _ _ Hinv) as Hsub.
      unfold finished. rewrite Hst2, Hst. set_solver.
    + destruct (decide (m ∈ rec_stack st)) as [Hstack|Hnostack].
      * unfold for_neighbors_post. cbn. exists m.
        eapply tc_rtc_l; [by apply Hpath|]. by apply tc_once.
      * specialize (IH st Hinv Hpath Hn Hns Hdepth).
        destruct (for_neighbors rec ns st) as [[r2 st2] log2].
        unfold for_neighbors_post in *. cbn in *.
        destruct r2 as [[]|]; [done| |done..].
        destruct IH as (Hst2 & Hvis2 & Hinv2 & Hfin).
        split_and!; [done..|].
        intros m' [->|Hm']%elem_of_cons; [|by apply Hfin].
        unfold finished. rewrite Hst2.
        apply dec_stable in Hold. set_solver.
Qed.

Lemma size_unvisited_add (V : gset string) m :
  m ∈ U → m ∉ V → S (size (U ∖ ({[m]} ∪ V))) = size (U ∖ V).
Proof.
  intros HmU HmV.
  assert (U ∖ V = {[m]} ∪ U ∖ ({[m]} ∪ V)) as ->.
  { apply set_eq. intros x. destruct (decide (x = m)); set_solver. }
  transitivity (size ({[m]} : gset string) + size (U ∖ ({[m]} ∪ V))).
  - assert (size ({[m]} : gset string) = 1) as -> by apply size_singleton.
    done.
  - symmetry. apply size_union. set_solver.
Qed.

(** Entering [m]: both sets get [m], nothing finishes. *)
Lemma inv_enter m st :
  inv graph U st → m ∈ U → m ∉ visited st →
  inv graph U (rec_stack_add m (visited_add m st)).
Proof.
  intros [Hs Hu Hc Ha] HmU Hnew.
  assert (Hfin : finished (rec_stack_add m (visited_add m st)) = finished st).
  { unfold finished. cbn. set_solver. }
  split; [cbn; set_solver..| |]; rewrite Hfin; done.
Qed.

(** Leaving [m] after all its neighbours have finished. *)
Lemma inv_leave m st :
  inv graph U st → m ∈ rec_stack st →
  (∀ v, arc graph m v → v ∈ finished st) →
  inv graph U (State (visited st) (rec_stack st ∖ {[m]})).
Proof.
  intros Hinv Hm Hnb. pose proof Hinv as [Hs Hu Hc Ha].
  assert (Hfin : ∀ u, u ∈ finished (State (visited st) (rec_stack st ∖ {[m]}))
                      ↔ u ∈ finished st ∨ u = m).
  { intros u. unfold finished. cbn. destruct (decide (u = m)); set_solver. }
  assert (Hm' : m ∉ finished st) by (unfold finished; set_solver).
  split; [cbn; set_solver..| |].
  - intros u v [Hu'| ->]%Hfin Huv; apply Hfin; left; eauto.
  - intros u [Hu'| ->]%Hfin; [by apply Ha|].
    intros Hcyc. apply Hm'.
    inversion Hcyc as [? ? Hmm|? v ? Hmv Hvm]; subst; [by apply Hnb|].
    eapply finished_closed_rtc; [done|by apply Hnb|by apply tc_rtc].
Qed.

Lemma has_cycle_correct depth : has_cycle_spec graph U depth (has_cycle depth graph).
Proof.
  induction depth as [|depth IH]; intros m st Hinv Hpath Hnew HmU Hdepth.
  - pose proof (size_unvisited_add (visited st) m HmU Hnew). lia.
  - cbn [has_cycle].
    set (st2 := rec_stack_add m (visited_add m st)).
    assert (Hloop : for_neighbors_post graph U (neighbors graph m) st2
              (for_neighbors (has_cycle depth graph) (neighbors graph m) st2)).
    { apply (for_neighbors_correct depth _ m); [done|by apply inv_enter| | |done|].
      - intros s [->%elem_of_singleton|Hs]%elem_of_union; [done|].
        by apply Hpath.
      - cbn. set_solver.
      - pose proof (size_unvisited_add (visited st) m HmU Hnew).
        cbn. lia. }
    destruct (for_neighbors _ _ st2) as [[r st3] log].
    unfold for_neighbors_post in Hloop. cbn in Hloop.
    destruct r as [[]|]; [done| |done..].
    destruct Hloop as (Hst & Hvis & Hinv3 & Hfin).
    assert (Hm3 : m ∈ rec_stack st3) by (rewrite Hst; cbn; set_solver).
    unfold rec_stack_remove. rewrite decide_True by done.
    unfold has_cycle_post. cbn.
    pose proof (inv_stack _ _ _ Hinv) as Hsub.
    split_and!.
    + rewrite Hst. cbn. set_solver.
    + cbn in Hvis. set_solver.
    + cbn in Hvis. set_solver.
    + by apply inv_leave.
Qed.

(** The loop over the supplied nodes, started with an empty stack. *)
Lemma for_nodes_correct depth nodes st :
  inv graph U st → rec_stack st = ∅ →
  (∀ node, node ∈ nodes → Node.id node ∈ U) →
  size (U ∖ visited st) ≤ depth →
  match for_nodes depth graph nodes st with
  | (Ret false, _, _) => ∃ c, tc (arc graph) c c
  | (Ret true, st', _) =>
      inv graph U st' ∧ rec_stack st' = ∅ ∧ visited st ⊆ visited st' ∧
      ∀ node, node ∈ nodes → Node.id node ∈ visited st'
  | _ => False
  end.
Proof.
  revert st. induction nodes as [|nd nodes IH]; intros st Hinv Hst HU Hdepth.
  - cbn. split_and!; [done..|]. intros nd Hnd. by apply elem_of_nil in Hnd.
  - cbn [for_nodes].
    assert (HU' : ∀ node, node ∈ nodes → Node.id node ∈ U)
      by (intros; apply HU; by right).
    destruct (decide (Node.id nd ∉ visited st)) as [Hnew|Hold].
    + pose proof (has_cycle_correct depth (Node.id nd) st Hinv) as Hc.
      destruct (has_cycle depth graph (Node.id nd) st) as [[r st1] log1].
      unfold has_cycle_post in Hc. cbn in Hc.
      assert (Hpost : match r with
                      | Ret true => ∃ c, tc (arc graph) c c
                      | Ret false =>
                          rec_stack st1 = rec_stack st ∧
                          visited st ⊆ visited st1 ∧
                          Node.id nd ∈ visited st1 ∧ inv graph U st1
                      | _ => False
                      end).
      { apply Hc; [|done|apply HU; by left|done].
        intros s Hs. rewrite Hst in Hs. set_solver. }
      destruct r as [[]|]; [done| |done..].
      destruct Hpost as (Hst1 & Hvis & Hin & Hinv1).
      specialize (IH st1 Hinv1).
      destruct (for_nodes depth graph nodes st1) as [[r2 st2] log2].
      assert (Hpost2 : match r2 with
                       | Ret false => ∃ c, tc (arc graph) c c
                       | Ret true =>
                           inv graph U st2 ∧ rec_stack st2 = ∅ ∧
                           visited st1 ⊆ visited st2 ∧
                           ∀ node, node ∈ nodes → Node.id node ∈ visited st2
                       | _ => False
                       end).
      { apply IH; [congruence|done|].
        etrans; [by apply size_unvisited_mono|done]. }
      destruct r2 as [[]|]; [|done..].
      destruct Hpost2 as (Hinv2 & Hst2 & Hvis2 & Hall).
      split_and!; [done|done|set_solver|].
      intros node [->|Hnode]%elem_of_cons; [set_solver|by apply Hall].
    + specialize (IH st Hinv Hst HU' Hdepth).
      destruct (for_nodes depth graph nodes st) as [[r2 st2] log2].
      destruct r2 as [[]|]; [|done..].
      destruct IH as (Hinv2 & Hst2 & Hvis2 & Hall).
      split_and!; [done..|].
      intros node [->|Hnode]%elem_of_cons; [|by apply Hall].
      apply dec_stable in Hold. set_solver.
Qed.

(** *** What the steps of a run look like *)

Lemma run_ok_nil st : state_ok U st → run_ok U st st [].
Proof using Type.
  clear U_closed.
  intros Hst. split; cbn; try done; [set_solver|constructor|].
  intros n Hn. by apply elem_of_nil in Hn.
Qed.

Lemma run_ok_app st st1 st2 l1 l2 :
  run_ok U st st1 l1 → run_ok U st1 st2 l2 → run_ok U st st2 (l1 ++ l2).
Proof using Type.
  clear U_closed.
  intros [Hs1 Hf1 Hfs1 Hg1 He1 Hv1 Hc1 Hn1] [Hs2 Hf2 Hfs2 Hg2 He2 Hv2 Hc2 Hn2].
  split.
  - by apply Forall_app.
  - by rewrite last_state_app, <- Hf1.
  - done.
  - apply grows_app; [done|]. by rewrite <- Hf1.
  - by apply Forall_app.
  - rewrite calls_app, list_to_set_app_L, Hv2, Hv1. set_solver.
  - rewrite calls_app. apply NoDup_app. split_and!; [done| |done].
    intros n Hn1' Hn2'. apply (Hn2 n Hn2'). rewrite Hv1. set_solver.
  - rewrite calls_app. intros n [Hn|Hn]%elem_of_app; [by apply Hn1|].
    intros Hin. apply (Hn2 n Hn). rewrite Hv1. set_solver.
Qed.

(** Lines 72-73, with the entry to the call. *)
Lemma run_ok_enter m st :
  state_ok U st → m ∉ visited st → m ∈ U →
  run_ok U st (rec_stack_add m (visited_add m st))
    [Step (Enter m) st; Step (VisitedAdd m) (visited_add m st);
     Step (RecStackAdd m) (rec_stack_add m (visited_add m st))].
Proof using Type.
  clear U_closed.
  intros [Hs Hu] Hnew HmU.
  assert (state_ok U (visited_add m st)) by (split; cbn; set_solver).
  assert (state_ok U (rec_stack_add m (visited_add m st)))
    by (split; cbn; set_solver).
  assert (state_ok U st) by done.
  split; cbn.
  - repeat (apply Forall_cons_2; [done|]). apply Forall_nil_2.
  - done.
  - done.
  - set_solver.
  - repeat (apply Forall_cons_2; [intros n; cbn; try done|]);
      [by intros [= <-]|apply Forall_nil_2].
  - set_solver.
  - apply NoDup_singleton.
  - by intros n ->%list_elem_of_singleton.
Qed.

(** Line 82. *)
Lemma run_ok_remove m st :
  state_ok U st →
  run_ok U st (State (visited st) (rec_stack st ∖ {[m]}))
    [Step (RecStackRemove m) (State (visited st) (rec_stack st ∖ {[m]}))].
Proof using Type.
  clear U_closed.
  intros [Hs Hu].
  assert (state_ok U (State (visited st) (rec_stack st ∖ {[m]})))
    by (split; cbn; set_solver).
  split; cbn; try done.
  - apply Forall_cons_2; [done|apply Forall_nil_2].
  - apply Forall_cons_2; [by intros n|apply Forall_nil_2].
  - set_solver.
  - apply NoDup_nil_2.
  - intros n Hn. by apply elem_of_nil in Hn.
Qed.

Lemma for_neighbors_steps rec ns st :
  has_cycle_steps U rec → state_ok U st → (∀ m, m ∈ ns → m ∈ U) →
  run_ok U st (for_neighbors rec ns st).1.2 (for_neighbors rec ns st).2.
Proof.
  intros Hrec. revert st. induction ns as [|m ns IH]; intros st Hst Hns.
  - by apply run_ok_nil.
  - cbn [for_neighbors].
    assert (HmU : m ∈ U) by (apply Hns; left).
    assert (Hns' : ∀ m', m' ∈ ns → m' ∈ U) by (intros; apply Hns; by right).
    destruct (decide (m ∉ visited st)) as [Hnew|Hold].
    + specialize (Hrec m st Hst Hnew HmU).
      destruct (rec m st) as [[r st1] log1]. cbn in Hrec.
      destruct r as [[]|]; [done| |done..].
      specialize (IH st1 (ok_final_state _ _ _ _ Hrec) Hns').
      destruct (for_neighbors rec ns st1) as [[r2 st2] log2]. cbn in *.
      by eapply run_ok_app.
    + destruct (decide (m ∈ rec_stack st)); [by apply run_ok_nil|].
      by apply IH.
Qed.

Lemma has_cycle_steps_ok depth : has_cycle_steps U (has_cycle depth graph).
Proof.
  induction depth as [|depth IH]; intros m st Hst Hnew HmU.
  - by apply run_ok_nil.
  - cbn [has_cycle].
    pose proof (run_ok_enter m st Hst Hnew HmU) as Hentry.
    pose proof (for_neighbors_steps (has_cycle depth graph)
                  (neighbors graph m) _ IH (ok_final_state _ _ _ _ Hentry))
      as Hloop.
    destruct (for_neighbors _ _ _) as [[r st3] log]. cbn in Hloop.
    assert (Hlog : run_ok U (rec_stack_add m (visited_add m st)) st3 log)
      by (apply Hloop; intros; by eapply U_closed).
    assert (Hmid : run_ok U st st3
              ([Step (Enter m) st; Step (VisitedAdd m) (visited_add m st);
                Step (RecStackAdd m) (rec_stack_add m (visited_add m st))]
               ++ log)) by by eapply run_ok_app.
    destruct r as [[]|]; [done| |done..].
    unfold rec_stack_remove. case_decide; cbn [fst snd]; [|done].
    rewrite (app_assoc [_; _; _] log [_ ]).
    eapply run_ok_app; [done|].
    apply run_ok_remove. by eapply ok_final_state.
Qed.

Lemma for_nodes_steps depth nodes st :
  state_ok U st → (∀ node, node ∈ nodes → Node.id node ∈ U) →
  run_ok U st (for_nodes depth graph nodes st).1.2
    (for_nodes depth graph nodes st).2.
Proof.
  revert st. induction nodes as [|nd nodes IH]; intros st Hst HU.
  - by apply run_ok_nil.
  - cbn [for_nodes].
    assert (HU' : ∀ node, node ∈ nodes → Node.id node ∈ U)
      by (intros; apply HU; by right).
    destruct (decide (Node.id nd ∉ visited st)) as [Hnew|Hold];
      [|by apply IH].
    pose proof (has_cycle_steps_ok depth (Node.id nd) st Hst Hnew) as Hc.
    destruct (has_cycle depth graph (Node.id nd) st) as [[r st1] log1].
    cbn in Hc.
    assert (Hrun : run_ok U st st1 log1) by (apply Hc, HU; left).
    destruct r as [[]|]; [done| |done..].
    specialize (IH st1 (ok_final_state _ _ _ _ Hrun) HU').
    destruct (for_nodes depth graph nodes st1) as [[r2 st2] log2]. cbn in *.
    by eapply run_ok_app.
Qed.

End traversal.

Lemma tc_mono {A} (R1 R2 : relation A) x y :
  (∀ a b, R1 a b → R2 a b) → tc R1 x y → tc R2 x y.
Proof.
  intros Hsub Htc. induction Htc as [x y Hxy|x y z Hxy _ IH].
  - by apply tc_once, Hsub.
  - eapply tc_l; [by apply Hsub|done].
Qed.

Lemma tc_first {A} (R : relation A) x y : tc R x y → ∃ z, R x z.
Proof. intros [? ? H|? z ? H _]; eauto. Qed.

Lemma acyclic_iff_no_cycle edges : acyclic edges ↔ ¬ has_directed_cycle edges.
Proof.
  unfold acyclic, has_directed_cycle. split.
  - intros Hac [v Hv]. by apply (Hac v).
  - intros Hno v Hv. apply Hno. by exists v.
Qed.



(** *** The dictionary built by lines 63-65 *)

Lemma init_graph_lookup_from (g : gmap string (list string)) nodes k :
  foldl (λ g node, <[Node.id node := []]> g) g nodes !! k
  = if decide (k ∈ node_ids nodes) then Some [] else g !! k.
Proof.
  revert g. induction nodes as [|nd nodes IH]; intros g; cbn.
  - rewrite decide_False; [done|]. unfold node_ids. set_solver.
  - rewrite IH. unfold node_ids. cbn.
    destruct (decide (k ∈ list_to_set (Node.id <$> nodes))) as [Hin|Hnin].
    + rewrite decide_True; [done|set_solver].
    + destruct (decide (k = Node.id nd)) as [->|Hne].
      * rewrite decide_True by set_solver. apply lookup_insert_eq.
      * rewrite decide_False by set_solver. by apply lookup_insert_ne.
Qed.

Lemma init_graph_lookup nodes k :
  init_graph nodes !! k = if decide (k ∈ node_ids nodes) then Some [] else None.
Proof. unfold init_graph. by rewrite init_graph_lookup_from, lookup_empty. Qed.

Lemma init_graph_dom nodes : dom (init_graph nodes) = node_ids nodes.
Proof.
  apply set_eq. intros k. rewrite elem_of_dom, init_graph_lookup.
  case_decide; [by split; eauto|]. split; [by intros [? ?]|done].
Qed.

Lemma init_graph_neighbors nodes k : neighbors (init_graph nodes) k = [].
Proof. unfold neighbors. rewrite init_graph_lookup. by case_decide. Qed.

(** With every source in the dictionary, the loop adds all edges and no
    key. *)
Lemma add_edges_ok edges graph :
  Forall (λ e, Edge.source e ∈ dom graph) edges →
  ∃ graph', add_edges edges graph = Ret graph' ∧ dom graph' = dom graph ∧
    ∀ u v, v ∈ neighbors graph' u ↔ v ∈ neighbors graph u ∨ edge_rel edges u v.
Proof.
  revert graph. induction edges as [|e edges IH]; intros graph Hsrc; cbn.
  - exists graph. split_and!; [done..|]. intros u v. split; [by left|].
    intros [?|(e & He & _)]; [done|]. by apply elem_of_nil in He.
  - apply Forall_cons in Hsrc as [He Hrest].
    apply elem_of_dom in He as [targets Hlook]. rewrite Hlook.
    destruct (IH (<[Edge.source e := targets ++ [Edge.target e]]> graph))
      as (graph' & Hrun & Hdom & Hnb).
    { rewrite dom_insert_lookup_L by eauto. done. }
    exists graph'. split; [done|]. split.
    { rewrite Hdom. apply dom_insert_lookup_L. eauto. }
    intros u v. rewrite Hnb. unfold neighbors, edge_rel.
    destruct (decide (u = Edge.source e)) as [->|Hne].
    + rewrite lookup_insert_eq, Hlook. cbn. rewrite elem_of_app.
      rewrite list_elem_of_singleton. split.
      * intros [[?| ->]|(e' & He' & Hs & Ht)]; [by left| |].
        -- right. exists e. split_and!; [left|done..].
        -- right. exists e'. split_and!; [by right|done..].
      * intros [?|(e' & [->|He']%elem_of_cons & Hs & Ht)].
        -- by left; left.
        -- by left; right.
        -- right. by exists e'.
    + rewrite lookup_insert_ne by done. split.
      * intros [?|(e' & He' & Hs & Ht)]; [by left|].
        right. exists e'. split_and!; [by right|done..].
      * intros [?|(e' & [->|He']%elem_of_cons & Hs & Ht)];
          [by left|done|]. right. by exists e'.
Qed.

(** With a source missing from the dictionary, the subscript of line 65
    raises [KeyError] for it. *)
Lemma add_edges_raise edges graph :
  ¬ Forall (λ e, Edge.source e ∈ dom graph) edges →
  ∃ e, e ∈ edges ∧ (Edge.source e ∉ dom graph) ∧
       add_edges edges graph = Raise (KeyError (Edge.source e)).
Proof.
  revert graph. induction edges as [|e edges IH]; intros graph Hsrc; cbn.
  - destruct Hsrc. apply Forall_nil_2.
  - destruct (graph !! Edge.source e) as [targets|] eqn:Hlook.
    + destruct (IH (<[Edge.source e := targets ++ [Edge.target e]]> graph))
        as (e' & He' & Hnin & Hrun).
      { rewrite dom_insert_lookup_L by eauto. intros Hrest. apply Hsrc.
        apply Forall_cons_2; [|done]. apply elem_of_dom. eauto. }
      rewrite dom_insert_lookup_L in Hnin by eauto.
      exists e'. split_and!; [by right|done..].
    + exists e. split_and!; [left|by apply not_elem_of_dom|done].
Qed.

Lemma build_graph_ok nodes edges :
  sources_known nodes edges →
  ∃ graph, build_graph nodes edges = Ret graph ∧
    dom graph = node_ids nodes ∧
    ∀ u v, arc graph u v ↔ edge_rel edges u v.
Proof.
  intros Hsrc. unfold build_graph.
  destruct (add_edges_ok edges (init_graph nodes)) as (graph & Hrun & Hdom & Hnb).
  { by rewrite init_graph_dom. }
  exists graph. split; [done|]. split; [by rewrite Hdom, init_graph_dom|].
  intros u v. unfold arc. rewrite Hnb, init_graph_neighbors.
  split; [intros [H%elem_of_nil|]; done|by right].
Qed.

Lemma build_graph_raise nodes edges :
  ¬ sources_known nodes edges →
  ∃ e, e ∈ edges ∧ (Edge.source e ∉ node_ids nodes) ∧
       build_graph nodes edges = Raise (KeyError (Edge.source e)).
Proof.
  intros Hsrc. unfold build_graph.
  destruct (add_edges_raise edges (init_graph nodes)) as (e & He & Hnin & Hrun).
  { by rewrite init_graph_dom. }
  rewrite init_graph_dom in Hnin. by exists e.
Qed.

(** ** The run of [check_is_dag] on a well-formed input *)

Lemma inv_fresh graph U : inv graph U fresh.
Proof. split; unfold finished; cbn; set_solver. Qed.

Lemma arc_in_universe nodes edges graph :
  (∀ u v, arc graph u v ↔ edge_rel edges u v) →
  ∀ u v, arc graph u v → v ∈ universe nodes edges.
Proof.
  intros Harc u v (e & He & _ & <-)%Harc. unfold universe.
  apply elem_of_union_r, elem_of_list_to_set. by apply list_elem_of_fmap_2.
Qed.

Lemma node_in_universe nodes edges node :
  node ∈ nodes → Node.id node ∈ universe nodes edges.
Proof.
  intros Hn. unfold universe, node_ids.
  apply elem_of_union_l, elem_of_list_to_set. by apply list_elem_of_fmap_2.
Qed.

(** With every source among the node ids and depth for every id, the run
    returns, and returns [true] exactly for an acyclic graph; its steps
    are as [run_ok] describes. *)
Lemma check_is_dag_run_spec depth nodes edges :
  sources_known nodes edges →
  size (universe nodes edges) ≤ depth →
  ∃ b st log,
    check_is_dag_run depth nodes edges = (Ret b, st, log) ∧
    (b = true ↔ acyclic edges) ∧
    ∃ graph, build_graph nodes edges = Ret graph ∧
             run_ok (universe nodes edges) fresh st log.
Proof.
  intros Hsrc Hdepth.
  destruct (build_graph_ok nodes edges Hsrc) as (graph & Hbuild & Hdom & Harc).
  pose proof (arc_in_universe nodes edges graph Harc) as Hclosed.
  pose proof (for_nodes_correct graph _ Hclosed depth nodes fresh
                (inv_fresh _ _) eq_refl
                (λ nd, node_in_universe nodes edges nd)) as Hcorrect.
  pose proof (for_nodes_steps graph _ Hclosed depth nodes fresh) as Hsteps.
  unfold check_is_dag_run. rewrite Hbuild.
  destruct (for_nodes depth graph nodes fresh) as [[r st] log].
  cbn in Hsteps.
  assert (Hrun : run_ok (universe nodes edges) fresh st log).
  { apply Hsteps; [split; cbn; set_solver|].
    apply node_in_universe. }
  assert (Hpost : match r with
                  | Ret false => ∃ c, tc (arc graph) c c
                  | Ret true =>
                      inv graph (universe nodes edges) st ∧ rec_stack st = ∅ ∧
                      visited fresh ⊆ visited st ∧
                      ∀ node, node ∈ nodes → Node.id node ∈ visited st
                  | _ => False
                  end).
  { apply Hcorrect. cbn. etrans; [|done]. apply subseteq_size. set_solver. }
  destruct r as [[]|]; [| |done..].
  - exists true, st, log. split; [done|]. split; [|by eauto].
    split; [|done]. intros _ v Hcyc.
    destruct Hpost as (Hinv & Hstack & _ & Hall).
    destruct (tc_first _ _ _ Hcyc) as (w & e & He & <- & _).
    apply Forall_forall with (x := e) in Hsrc; [|done].
    apply elem_of_list_to_set, list_elem_of_fmap in Hsrc as (nd & Hid & Hnd).
    eapply (inv_acyclic _ _ _ Hinv (Edge.source e)).
    + unfold finished. rewrite Hstack, Hid. specialize (Hall nd Hnd). set_solver.
    + eapply tc_mono; [|done]. intros a b. apply Harc.
  - exists false, st, log. split; [done|]. split; [|by eauto].
    split; [done|]. intros Hac. destruct Hpost as [c Hc].
    destruct (Hac c). eapply tc_mono; [|done]. intros a b. apply Harc.
Qed.

(** With depth for every id the call returns the right answer. *)
Lemma check_is_dag_returns depth nodes edges :
  sources_known nodes edges →
  size (universe nodes edges) ≤ depth →
  ∃ b, check_is_dag depth nodes edges = Ret b ∧ (b = true ↔ acyclic edges).
Proof.
  intros Hsrc Hdepth.
  destruct (check_is_dag_run_spec depth nodes edges Hsrc Hdepth)
    as (b & st & log & Hrun & Hb & _).
  exists b. split; [|done]. unfold check_is_dag. by rewrite Hrun.
Qed.

Lemma check_is_dag_raises depth nodes edges :
  ¬ sources_known nodes edges →
  ∃ e, e ∈ edges ∧ (Edge.source e ∉ node_ids nodes) ∧
       check_is_dag depth nodes edges = Raise (KeyError (Edge.source e)).
Proof.
  intros Hsrc.
  destruct (build_graph_raise nodes edges Hsrc) as (e & He & Hnin & Hraise).
  exists e. split_and!; [done..|].
  unfold check_is_dag, check_is_dag_run. by rewrite Hraise.
Qed.

Lemma build_graph_returns_known nodes edges graph :
  build_graph nodes edges = Ret graph → sources_known nodes edges.
Proof.
  intros Hbuild. destruct (decide (sources_known nodes edges)) as [|Hsrc]; [done|].
  destruct (build_graph_raise nodes edges Hsrc) as (e & _ & _ & Hraise).
  congruence.
Qed.

(** ** More depth changes nothing *)

(** A run that does not end in [RecursionError] is the same at any
    greater depth. *)
Lemma for_neighbors_mono rec rec' ns st :
  (∀ m st0, (rec m st0).1.1 ≠ Raise RecursionError → rec' m st0 = rec m st0) →
  (for_neighbors rec ns st).1.1 ≠ Raise RecursionError →
  for_neighbors rec' ns st = for_neighbors rec ns st.
Proof.
  intros Hrec. revert st. induction ns as [|m ns IH]; intros st; [done|].
  cbn [for_neighbors]. case_decide; [|case_decide; [done|apply IH]].
  specialize (Hrec m st). specialize (IH).
  destruct (rec m st) as [[r st1] log1] eqn:Hr. cbn in Hrec.
  destruct r as [[]|ex].
  - intros _. by rewrite Hrec.
  - rewrite Hrec by done. specialize (IH st1).
    destruct (for_neighbors rec ns st1) as [[r2 st2] log2]. cbn in *.
    intros Hne. by rewrite IH.
  - cbn. intros Hne. by rewrite Hrec.
Qed.

Lemma has_cycle_mono depth depth' graph n st :
  depth ≤ depth' →
  (has_cycle depth graph n st).1.1 ≠ Raise RecursionError →
  has_cycle depth' graph n st = has_cycle depth graph n st.
Proof.
  revert depth' n st. induction depth as [|depth IH]; intros depth' n st Hle;
    [done|].
  destruct depth' as [|depth']; [lia|]. cbn [has_cycle]. intros Hne.
  assert (Hloop : (for_neighbors (has_cycle depth graph) (neighbors graph n)
                     (rec_stack_add n (visited_add n st))).1.1
                  ≠ Raise RecursionError).
  { destruct (for_neighbors (has_cycle depth graph) _ _) as [[r st3] log].
    cbn in *. intros ->. by apply Hne. }
  rewrite (for_neighbors_mono (has_cycle depth graph) (has_cycle depth' graph));
    [done| |done].
  intros m st0. apply IH. lia.
Qed.

Lemma for_nodes_mono depth depth' graph nodes st :
  depth ≤ depth' →
  (for_nodes depth graph nodes st).1.1 ≠ Raise RecursionError →
  for_nodes depth' graph nodes st = for_nodes depth graph nodes st.
Proof.
  intros Hle. revert st. induction nodes as [|nd nodes IH]; intros st; [done|].
  cbn [for_nodes]. case_decide; [|apply IH].
  pose proof (has_cycle_mono depth depth' graph (Node.id nd) st Hle) as Hc.
  specialize (IH).
  destruct (has_cycle depth graph (Node.id nd) st) as [[r st1] log1].
  cbn in Hc. destruct r as [[]|ex].
  - intros _. by rewrite Hc.
  - rewrite Hc by done. specialize (IH st1).
    destruct (for_nodes depth graph nodes st1) as [[r2 st2] log2]. cbn in *.
    intros Hne. by rewrite IH.
  - cbn. intros Hne. by rewrite Hc.
Qed.

Lemma check_is_dag_run_mono depth depth' nodes edges :
  depth ≤ depth' →
  (check_is_dag_run depth nodes edges).1.1 ≠ Raise RecursionError →
  check_is_dag_run depth' nodes edges = check_is_dag_run depth nodes edges.
Proof.
  unfold check_is_dag_run. destruct (build_graph nodes edges); [|done].
  apply for_nodes_mono.
Qed.


(** A returned boolean is the right one, at any depth. *)
Lemma check_is_dag_sound depth nodes edges b :
  check_is_dag depth nodes edges = Ret b →
  sources_known nodes edges ∧ (b = true ↔ acyclic edges).
Proof.
  intros Hrun.
  assert (Hsrc : sources_known nodes edges).
  { destruct (decide (sources_known nodes edges)) as [|Hsrc]; [done|].
    destruct (check_is_dag_raises depth nodes edges Hsrc) as (e & _ & _ & Hr).
    congruence. }
  split; [done|].
  destruct (check_is_dag_returns (depth `max` size (universe nodes edges))
              nodes edges Hsrc) as (b' & Hrun' & Hiff); [lia|].
  unfold check_is_dag in *.
  rewrite (check_is_dag_run_mono depth) in Hrun'; [|lia|by rewrite Hrun].
  by assert (b = b') as -> by congruence.
Qed.

(** ** The traversal raises no [KeyError] *)

(** What the recursive call has to guarantee for [rec_stack.remove] of
    line 82 to find its element: it raises no [KeyError], and when it
    returns [False] it keeps [visited] and every visited id of the stack
    other than its own. *)
Lemma for_neighbors_keeps_stack rec ns st :
  (∀ m st0,
     match rec m st0 with
     | (Raise (KeyError _), _, _) => False
     | (Ret false, st1, _) =>
         visited st0 ⊆ visited st1 ∧
         ∀ x, x ≠ m → x ∈ visited st0 → x ∈ rec_stack st0 → x ∈ rec_stack st1
     | _ => True
     end) →
  match for_neighbors rec ns st with
  | (Raise (KeyError _), _, _) => False
  | (Ret false, st', _) =>
      visited st ⊆ visited st' ∧
      ∀ x, x ∈ visited st → x ∈ rec_stack st → x ∈ rec_stack st'
  | _ => True
  end.
Proof.
  intros Hrec. revert st. induction ns as [|m ns IH]; intros st; [done|].
  cbn [for_neighbors].
  destruct (decide (m ∉ visited st)) as [Hnew|Hold].
  - specialize (Hrec m st). destruct (rec m st) as [[r st1] log1].
    destruct r as [[]|[]]; [done| |done..].
    destruct Hrec as [Hvis Hkeep]. specialize (IH st1).
    destruct (for_neighbors rec ns st1) as [[r2 st2] log2].
    destruct r2 as [[]|[]]; [done| |done..].
    destruct IH as [Hvis2 Hkeep2]. split; [set_solver|].
    intros x Hx Hxs. apply Hkeep2; [set_solver|].
    apply Hkeep; [|done..]. intros ->. done.
  - destruct (decide (m ∈ rec_stack st)); [done|]. apply IH.
Qed.

Lemma has_cycle_keeps_stack depth graph n st :
  match has_cycle depth graph n st with
  | (Raise (KeyError _), _, _) => False
  | (Ret false, st', _) =>
      visited st ⊆ visited st' ∧
      ∀ x, x ≠ n → x ∈ visited st → x ∈ rec_stack st → x ∈ rec_stack st'
  | _ => True
  end.
Proof.
  revert n st. induction depth as [|depth IH]; intros n st; [done|].
  cbn [has_cycle].
  pose proof (for_neighbors_keeps_stack (has_cycle depth graph)
                (neighbors graph n) (rec_stack_add n (visited_add n st)) IH)
    as Hloop.
  destruct (for_neighbors _ _ _) as [[r st3] log].
  destruct r as [[]|[]]; [done| |done..].
  destruct Hloop as [Hvis Hkeep]. cbn in Hvis, Hkeep.
  unfold rec_stack_remove.
  rewrite decide_True by (apply Hkeep; set_solver). cbn.
  split; [set_solver|]. intros x Hne Hx Hxs.
  apply elem_of_difference. split; [|set_solver].
  apply Hkeep; set_solver.
Qed.

Lemma for_nodes_no_key_error depth graph nodes st k :
  (for_nodes depth graph nodes st).1.1 ≠ Raise (KeyError k).
Proof.
  revert st. induction nodes as [|nd nodes IH]; intros st; [done|].
  cbn [for_nodes]. case_decide; [|apply IH].
  pose proof (has_cycle_keeps_stack depth graph (Node.id nd) st) as Hc.
  destruct (has_cycle depth graph (Node.id nd) st) as [[r st1] log1].
  destruct r as [[]|[]]; [done| |done..].
  specialize (IH st1).
  by destruct (for_nodes depth graph nodes st1) as [[r2 st2] log2].
Qed.

(** With every source a node id, the call ends in a boolean or in
    [RecursionError]. *)
Lemma check_is_dag_outcome depth nodes edges :
  sources_known nodes edges →
  check_is_dag depth nodes edges = Raise RecursionError ∨
  ∃ b, check_is_dag depth nodes edges = Ret b.
Proof.
  intros Hsrc. destruct (build_graph_ok nodes edges Hsrc) as (graph & Hb & _).
  unfold check_is_dag, check_is_dag_run. rewrite Hb.
  pose proof (for_nodes_no_key_error depth graph nodes fresh) as Hno.
  destruct (for_nodes depth graph nodes fresh) as [[r st] log]. cbn in *.
  destruct r as [b|[k|]]; [by eauto| |by left]. by destruct (Hno k).
Qed.

(** ** Well-formed inputs *)

Lemma endpoints_sources_known nodes edges :
  endpoints_known nodes edges → sources_known nodes edges.
Proof. intros Hend. eapply Forall_impl; [done|]. by intros e [? _]. Qed.

Lemma universe_endpoints_known nodes edges :
  endpoints_known nodes edges → universe nodes edges = node_ids nodes.
Proof.
  intros Hend. unfold universe. apply set_eq. intros k.
  rewrite elem_of_union, elem_of_list_to_set, list_elem_of_fmap.
  split; [|by left]. intros [?|(e & -> & He)]; [done|].
  by apply (proj1 (Forall_forall _ _) Hend e He).
Qed.

Lemma size_node_ids_unique nodes :
  unique_ids nodes → size (node_ids nodes) = length nodes.
Proof.
  intros Hu. unfold node_ids.
  assert (size (list_to_set (Node.id <$> nodes) : gset string)
          = length (Node.id <$> nodes)) as -> by by apply size_list_to_set.
  apply length_fmap.
Qed.

(** A strictly increasing rank along every edge excludes cycles. *)
Lemma acyclic_of_rank edges (rank : string → nat) :
  (∀ u v, edge_rel edges u v → rank u < rank v) → acyclic edges.
Proof.
  intros Hrank v Hcyc.
  assert (Hlt : ∀ a b, tc (edge_rel edges) a b → rank a < rank b).
  { intros a b Hab. induction Hab as [a b Hab|a b c Hab _ IH].
    - by apply Hrank.
    - etrans; [by apply Hrank|done]. }
  specialize (Hlt v v Hcyc). lia.
Qed.

Lemma acyclic_no_edges : acyclic [].
Proof.
  apply (acyclic_of_rank [] (λ _, 0)).
  intros u v (e & He & _). by apply elem_of_nil in He.
Qed.

Lemma self_loop_cycle edges e :
  e ∈ edges → Edge.source e = Edge.target e → has_directed_cycle edges.
Proof.
  intros He Hloop. exists (Edge.source e). apply tc_once.
  exists e. by rewrite <- Hloop.
Qed.

Lemma acyclic_subrel edges edges' :
  (∀ u v, edge_rel edges' u v → edge_rel edges u v) →
  acyclic edges → acyclic edges'.
Proof.
  intros Hsub Hac v Hcyc. apply (Hac v). by eapply tc_mono.
Qed.

(** ** The adjacency lists *)

Lemma targets_of_cons e edges u :
  targets_of (e :: edges) u
  = if decide (Edge.source e = u)
    then Edge.target e :: targets_of edges u
    else targets_of edges u.
Proof.
  unfold targets_of. case_decide.
  - by rewrite filter_cons_True.
  - by rewrite filter_cons_False.
Qed.

Lemma targets_of_app edges1 edges2 u :
  targets_of (edges1 ++ edges2) u = targets_of edges1 u ++ targets_of edges2 u.
Proof. unfold targets_of. by rewrite filter_app, fmap_app. Qed.

Lemma add_edges_exact edges graph :
  Forall (λ e, Edge.source e ∈ dom graph) edges →
  ∃ graph', add_edges edges graph = Ret graph' ∧ dom graph' = dom graph ∧
    ∀ u, neighbors graph' u = neighbors graph u ++ targets_of edges u.
Proof.
  revert graph. induction edges as [|e edges IH]; intros graph Hsrc;
    cbn [add_edges].
  - exists graph. split_and!; [done..|]. intros u. by rewrite app_nil_r.
  - apply Forall_cons in Hsrc as [He Hrest].
    apply elem_of_dom in He as [targets Hlook]. rewrite Hlook.
    destruct (IH (<[Edge.source e := targets ++ [Edge.target e]]> graph))
      as (graph' & Hrun & Hdom & Hnb).
    { by rewrite dom_insert_lookup_L by eauto. }
    exists graph'. split; [done|]. split.
    { rewrite Hdom. apply dom_insert_lookup_L. eauto. }
    intros u. rewrite Hnb, targets_of_cons. unfold neighbors.
    destruct (decide (Edge.source e = u)) as [<-|Hne].
    + rewrite lookup_insert_eq, Hlook. cbn. by rewrite <- app_assoc.
    + by rewrite lookup_insert_ne.
Qed.

Lemma add_edges_app pre rest graph :
  add_edges (pre ++ rest) graph
  = match add_edges pre graph with
    | Ret graph' => add_edges rest graph'
    | Raise ex => Raise ex
    end.
Proof.
  revert graph. induction pre as [|e pre IH]; intros graph; cbn; [done|].
  by destruct (graph !! Edge.source e).
Qed.

Lemma build_graph_exact nodes edges :
  sources_known nodes edges →
  ∃ graph, build_graph nodes edges = Ret graph ∧
    dom graph = node_ids nodes ∧
    ∀ u, neighbors graph u = targets_of edges u.
Proof.
  intros Hsrc. unfold build_graph.
  destruct (add_edges_exact edges (init_graph nodes))
    as (graph & Hrun & Hdom & Hnb).
  { by rewrite init_graph_dom. }
  exists graph. split; [done|]. split; [by rewrite Hdom, init_graph_dom|].
  intros u. by rewrite Hnb, init_graph_neighbors.
Qed.

(** ** Chains *)

Lemma name_length i : String.length (name i) = S i.
Proof.
  induction i as [|i IH]; [done|].
  transitivity (S (String.length (name i))); [reflexivity|by rewrite IH].
Qed.

#[local] Instance name_inj : Inj (=) (=) name.
Proof.
  intros i j Hij. apply (f_equal String.length) in Hij.
  rewrite !name_length in Hij. lia.
Qed.

Lemma chain_nodes_ids m : Node.id <$> chain_nodes m = name <$> seq 0 (S m).
Proof. unfold chain_nodes. rewrite <- list_fmap_compose. done. Qed.

Lemma chain_nodes_length m : length (chain_nodes m) = S m.
Proof. unfold chain_nodes. by rewrite length_fmap, length_seq. Qed.

Lemma chain_edges_length m : length (chain_edges m) = m.
Proof. unfold chain_edges. by rewrite length_fmap, length_seq. Qed.

Lemma chain_unique_ids m : unique_ids (chain_nodes m).
Proof.
  unfold unique_ids. rewrite chain_nodes_ids.
  apply (NoDup_fmap_2 name), NoDup_seq.
Qed.

Lemma chain_node_ids m i : name i ∈ node_ids (chain_nodes m) ↔ i ≤ m.
Proof.
  unfold node_ids. rewrite chain_nodes_ids, elem_of_list_to_set.
  rewrite (list_elem_of_fmap_inj name), elem_of_seq. lia.
Qed.

Lemma chain_edges_elem m e :
  e ∈ chain_edges m ↔ ∃ i, i < m ∧ e = edge (name i) (name (S i)).
Proof.
  unfold chain_edges. rewrite list_elem_of_fmap. split.
  - intros (i & -> & Hi%elem_of_seq). exists i. split; [lia|done].
  - intros (i & Hi & ->). exists i. split; [done|]. apply elem_of_seq. lia.
Qed.

Lemma chain_endpoints_known m : endpoints_known (chain_nodes m) (chain_edges m).
Proof.
  apply Forall_forall. intros e (i & Hi & ->)%chain_edges_elem.
  unfold edge. cbn [Edge.source Edge.target].
  rewrite !chain_node_ids. lia.
Qed.

Lemma chain_acyclic m : acyclic (chain_edges m).
Proof.
  apply (acyclic_of_rank _ String.length).
  intros u v (e & (i & Hi & ->)%chain_edges_elem & <- & <-).
  unfold edge. cbn [Edge.source Edge.target].
  rewrite !name_length. lia.
Qed.

Lemma chain_edges_S m :
  chain_edges (S m) = chain_edges m ++ [edge (name m) (name (S m))].
Proof. unfold chain_edges. by rewrite seq_S, fmap_app. Qed.

Lemma chain_targets m j :
  targets_of (chain_edges m) (name j)
  = if decide (j < m) then [name (S j)] else [].
Proof.
  induction m as [|m IH]; [by case_decide; [lia|]|].
  rewrite chain_edges_S, targets_of_app, IH, targets_of_cons.
  unfold edge. cbn [Edge.source Edge.target].
  change (targets_of [] (name j)) with (@nil string).
  destruct (decide (name m = name j)) as [Heq|Hne].
  - apply (inj name) in Heq as ->.
    rewrite decide_False by lia. by rewrite decide_True by lia.
  - assert (m ≠ j) by (by intros ->).
    destruct (decide (j < m)).
    + by rewrite decide_True by lia.
    + rewrite decide_False by lia. done.
Qed.

(** Along a chain longer than the depth, the calls nest until no depth
    is left. *)
Lemma has_cycle_chain_overflow graph m :
  (∀ j, neighbors graph (name j) = targets_of (chain_edges m) (name j)) →
  ∀ d i st, d + i ≤ m → (∀ j, i ≤ j → name j ∉ visited st) →
    (has_cycle d graph (name i) st).1.1 = Raise RecursionError.
Proof.
  intros Hnb. induction d as [|d IH]; intros i st Hd Hnew; [done|].
  cbn [has_cycle]. rewrite Hnb, chain_targets, decide_True by lia.
  cbn [for_neighbors].
  assert (Hnew' : ∀ j, S i ≤ j →
            name j ∉ visited (rec_stack_add (name i) (visited_add (name i) st))).
  { intros j Hj. cbn.
    assert (name j ≠ name i) by (intros ?%(inj name); lia).
    specialize (Hnew j). set_solver by lia. }
  rewrite decide_True by (apply Hnew'; lia).
  specialize (IH (S i) _ ltac:(lia) Hnew').
  destruct (has_cycle d graph (name (S i)) _) as [[r st'] log].
  cbn in IH. by subst r.
Qed.

(** The run on a node list that starts with the head of a chain longer
    than the depth. *)
Lemma chain_forward_overflow depth m nd rest :
  Node.id nd = name 0 →
  sources_known (nd :: rest) (chain_edges m) →
  depth ≤ m →
  check_is_dag depth (nd :: rest) (chain_edges m) = Raise RecursionError.
Proof.
  intros Hid Hsrc Hdepth.
  destruct (build_graph_exact _ _ Hsrc) as (graph & Hbuild & _ & Hnb).
  unfold check_is_dag, check_is_dag_run. rewrite Hbuild.
  cbn [for_nodes]. rewrite Hid, decide_True by (cbn; set_solver).
  pose proof (has_cycle_chain_overflow graph m (λ j, Hnb (name j))
                depth 0 fresh) as Hover.
  destruct (has_cycle depth graph (name 0) fresh) as [[r st] log].
  cbn in Hover. rewrite Hover; [done|lia|]. intros j _. cbn. set_solver.
Qed.

(** A call on a node whose neighbours are all finished is one frame
    deep. *)
Lemma for_neighbors_all_finished rec ns st :
  (∀ m, m ∈ ns → m ∈ visited st ∧ m ∉ rec_stack st) →
  for_neighbors rec ns st = (Ret false, st, []).
Proof.
  induction ns as [|m ns IH]; intros Hns; [done|]. cbn [for_neighbors].
  destruct (Hns m) as [Hv Hs]; [left|].
  destruct (decide (m ∉ visited st)) as [Hc|_]; [by destruct Hc|].
  destruct (decide (m ∈ rec_stack st)); [done|].
  apply IH. intros m' Hm'. apply Hns. by right.
Qed.

Lemma has_cycle_leaf depth graph n st :
  (∀ m, m ∈ neighbors graph n → m ≠ n ∧ m ∈ visited st ∧ m ∉ rec_stack st) →
  ∃ st' log, has_cycle (S depth) graph n st = (Ret false, st', log) ∧
    visited st' = {[n]} ∪ visited st ∧
    rec_stack st' = ({[n]} ∪ rec_stack st) ∖ {[n]}.
Proof.
  intros Hnb. cbn [has_cycle].
  rewrite for_neighbors_all_finished.
  - unfold rec_stack_remove. rewrite decide_True by (cbn; set_solver).
    by do 2 eexists.
  - intros m Hm. destruct (Hnb m Hm) as (? & ? & ?). cbn. set_solver.
Qed.

(** The chain's nodes supplied last node first: every top-level call
    finds its neighbour finished. *)
Lemma for_nodes_chain_reversed graph m depth :
  (∀ j, neighbors graph (name j) = targets_of (chain_edges m) (name j)) →
  ∀ k st, k ≤ S m → rec_stack st = ∅ →
    (∀ j, k ≤ j → j ≤ m → name j ∈ visited st) →
    (for_nodes (S depth) graph ((λ i, node (name i)) <$> reverse (seq 0 k)) st).1.1
    = Ret true.
Proof.
  intros Hnb. induction k as [|k IH]; intros st Hk Hstack Hvis; [done|].
  rewrite seq_S, reverse_snoc. cbn [fmap list_fmap for_nodes].
  change (Node.id (node (name (0 + k)))) with (name k).
  destruct (decide (name k ∉ visited st)) as [Hnew|Hold].
  - destruct (has_cycle_leaf depth graph (name k) st) as (st' & log & -> & Hv & Hs).
    { intros x. rewrite Hnb, chain_targets. case_decide; [|by intros ?%elem_of_nil].
      intros ->%list_elem_of_singleton. split_and!.
      - intros ?%(inj name). lia.
      - apply Hvis; lia.
      - rewrite Hstack. set_solver. }
    assert (Hstack' : rec_stack st' = ∅) by (rewrite Hs, Hstack; set_solver).
    specialize (IH st' ltac:(lia) Hstack').
    destruct (for_nodes (S depth) graph _ st') as [[r2 st2] log2].
    cbn in *. apply IH. intros j Hj Hjm. rewrite Hv.
    destruct (decide (j = k)) as [->|]; [set_solver|].
    apply elem_of_union_r, Hvis; lia.
  - apply IH; [lia|done|]. intros j Hj Hjm.
    destruct (decide (j = k)) as [->|]; [by apply dec_stable|].
    apply Hvis; lia.
Qed.

Lemma node_ids_perm nodes nodes' : nodes ≡ₚ nodes' → node_ids nodes = node_ids nodes'.
Proof.
  intros Hperm. unfold node_ids. apply set_eq. intros k.
  rewrite !elem_of_list_to_set. by rewrite Hperm.
Qed.

Lemma sources_known_perm nodes nodes' edges edges' :
  nodes ≡ₚ nodes' → edges ≡ₚ edges' →
  sources_known nodes edges → sources_known nodes' edges'.
Proof.
  intros Hn He. unfold sources_known.
  rewrite (node_ids_perm _ _ Hn). by rewrite He.
Qed.

Lemma chain_reversed_returns depth m :
  check_is_dag (S depth) (reverse (chain_nodes m)) (chain_edges m) = Ret true.
Proof.
  assert (Hsrc : sources_known (reverse (chain_nodes m)) (chain_edges m)).
  { eapply (sources_known_perm (chain_nodes m) _ (chain_edges m));
      [by rewrite reverse_Permutation|done|].
    apply endpoints_sources_known, chain_endpoints_known. }
  destruct (build_graph_exact _ _ Hsrc) as (graph & Hbuild & _ & Hnb).
  unfold check_is_dag, check_is_dag_run. rewrite Hbuild.
  unfold chain_nodes. rewrite <- fmap_reverse.
  apply (for_nodes_chain_reversed graph m depth (λ j, Hnb (name j)));
    [lia|done|]. intros j Hj Hjm. lia.
Qed.

(** ** The stack discipline of lines 73 and 82 *)

(** The stack discipline of lines 73 and 82, and what a reported cycle
    leaves on the stack. *)
Lemma for_neighbors_stack graph rec n ns st :
  (∀ m st0, rec_stack st0 ⊆ visited st0 → m ∉ visited st0 →
     match rec m st0 with
     | (Ret false, st1, _) =>
         rec_stack st1 = rec_stack st0 ∧ visited st0 ⊆ visited st1 ∧
         m ∈ visited st1
     | (Ret true, st1, _) =>
         on_path graph st0 m → ∃ c, c ∈ rec_stack st1 ∧ tc (arc graph) c c
     | _ => True
     end) →
  rec_stack st ⊆ visited st → n ∈ rec_stack st →
  (∀ m, m ∈ ns → arc graph n m) →
  match for_neighbors rec ns st with
  | (Ret false, st', _) =>
      rec_stack st' = rec_stack st ∧ visited st ⊆ visited st'
  | (Ret true, st', _) =>
      on_path graph st n → ∃ c, c ∈ rec_stack st' ∧ tc (arc graph) c c
  | _ => True
  end.
Proof.
  intros Hrec. revert st.
  induction ns as [|m ns IH]; intros st Hsub Hn Harc; [done|].
  cbn [for_neighbors].
  assert (Hm : arc graph n m) by (apply Harc; left).
  assert (Hns : ∀ m', m' ∈ ns → arc graph n m') by (intros; apply Harc; by right).
  destruct (decide (m ∉ visited st)) as [Hnew|Hold].
  - specialize (Hrec m st Hsub Hnew). destruct (rec m st) as [[r st1] log1].
    destruct r as [[]|]; [|clear Hnew|done..].
    + intros Hpath. apply Hrec. intros s Hs.
      eapply rtc_r; [by apply Hpath|done].
    + destruct Hrec as (Hst & Hvis & _).
      assert (Hsub1 : rec_stack st1 ⊆ visited st1) by (rewrite Hst; set_solver).
      assert (Hn1 : n ∈ rec_stack st1) by by rewrite Hst.
      specialize (IH st1 Hsub1 Hn1 Hns).
      destruct (for_neighbors rec ns st1) as [[r2 st2] log2].
      destruct r2 as [[]|]; [| |done..].
      * intros Hpath. apply IH. intros s Hs. apply Hpath. by rewrite <- Hst.
      * destruct IH as [Hst2 Hvis2]. split; [congruence|set_solver].
  - destruct (decide (m ∈ rec_stack st)) as [Hstack|Hnostack].
    + intros Hpath. exists m. split; [done|].
      eapply tc_rtc_l; [by apply Hpath|]. by apply tc_once.
    + by apply IH.
Qed.

Lemma has_cycle_stack depth graph n st :
  rec_stack st ⊆ visited st → n ∉ visited st →
  match has_cycle depth graph n st with
  | (Ret false, st', _) =>
      rec_stack st' = rec_stack st ∧ visited st ⊆ visited st' ∧
      n ∈ visited st'
  | (Ret true, st', _) =>
      on_path graph st n → ∃ c, c ∈ rec_stack st' ∧ tc (arc graph) c c
  | _ => True
  end.
Proof.
  revert n st. induction depth as [|depth IH]; intros n st Hsub Hnew; [done|].
  cbn [has_cycle].
  pose proof (for_neighbors_stack graph (has_cycle depth graph) n
                (neighbors graph n) (rec_stack_add n (visited_add n st)) IH)
    as Hloop.
  destruct (for_neighbors _ _ _) as [[r st3] log].
  assert (Hpost : match r with
                  | Ret false =>
                      rec_stack st3 = {[n]} ∪ rec_stack st ∧
                      {[n]} ∪ visited st ⊆ visited st3
                  | Ret true =>
                      on_path graph (rec_stack_add n (visited_add n st)) n →
                      ∃ c, c ∈ rec_stack st3 ∧ tc (arc graph) c c
                  | _ => True
                  end).
  { destruct r as [[]|]; try done; apply Hloop; cbn; (done || set_solver). }
  destruct r as [[]|]; [|clear Hloop|done..].
  - intros Hpath. apply Hpost.
    intros s [->%elem_of_singleton|Hs]%elem_of_union; [done|by apply Hpath].
  - destruct Hpost as [Hst Hvis]. unfold rec_stack_remove.
    rewrite decide_True by (rewrite Hst; set_solver). cbn.
    split_and!; [rewrite Hst|..]; set_solver.
Qed.

Lemma on_path_empty graph st n : rec_stack st = ∅ → on_path graph st n.
Proof. intros Hst s Hs. rewrite Hst in Hs. set_solver. Qed.

Lemma for_nodes_stack depth graph nodes st :
  rec_stack st = ∅ →
  match for_nodes depth graph nodes st with
  | (Ret true, st', _) => rec_stack st' = ∅
  | (Ret false, st', _) => ∃ c, c ∈ rec_stack st' ∧ tc (arc graph) c c
  | _ => True
  end.
Proof.
  revert st. induction nodes as [|nd nodes IH]; intros st Hst; [done|].
  cbn [for_nodes]. case_decide as Hnew; [|by apply IH].
  pose proof (has_cycle_stack depth graph (Node.id nd) st) as Hc.
  destruct (has_cycle depth graph (Node.id nd) st) as [[r st1] log1].
  assert (Hsub : rec_stack st ⊆ visited st) by (rewrite Hst; set_solver).
  specialize (Hc Hsub Hnew).
  destruct r as [[]|]; [| |done..].
  - apply Hc. by apply on_path_empty.
  - destruct Hc as (Hst1 & _ & _).
    assert (Hempty : rec_stack st1 = ∅) by congruence.
    specialize (IH st1 Hempty).
    by destruct (for_nodes depth graph nodes st1) as [[r2 st2] log2].
Qed.

(** ** Where a run starts and what its steps look like *)





(** Every state a run of [check_is_dag] goes through is as [run_ok]
    describes, for any input and any depth. *)
Lemma check_is_dag_run_steps depth nodes edges :
  run_ok (universe nodes edges) fresh
    (check_is_dag_run depth nodes edges).1.2
    (check_is_dag_run depth nodes edges).2.
Proof.
  assert (Hfresh : state_ok (universe nodes edges) fresh)
    by (split; cbn; set_solver).
  unfold check_is_dag_run.
  destruct (build_graph nodes edges) as [graph|] eqn:Hbuild;
    [|by apply run_ok_nil..].
  destruct (decide (sources_known nodes edges)) as [Hsrc|Hsrc].
  - destruct (build_graph_ok nodes edges Hsrc) as (graph' & Hbuild' & _ & Harc).
    assert (graph' = graph) as -> by congruence.
    apply (for_nodes_steps graph _ (arc_in_universe nodes edges graph Harc));
      [done|].
    apply node_in_universe.
  - destruct (build_graph_raise nodes edges Hsrc) as (e & _ & _ & Hraise).
    congruence.
Qed.

(** Everything the traversal lemmas say about a run on an input whose
    edge sources are node ids. *)
Lemma check_is_dag_run_full depth nodes edges :
  sources_known nodes edges →
  size (universe nodes edges) ≤ depth →
  ∃ graph, build_graph nodes edges = Ret graph ∧
    (∀ u v, arc graph u v ↔ edge_rel edges u v) ∧
    match check_is_dag_run depth nodes edges with
    | (Ret true, st, log) =>
        inv graph (universe nodes edges) st ∧ rec_stack st = ∅ ∧
        (∀ node, node ∈ nodes → Node.id node ∈ visited st) ∧
        run_ok (universe nodes edges) fresh st log
    | (Ret false, st, log) => has_directed_cycle edges
    | _ => False
    end.
Proof.
  intros Hsrc Hdepth.
  destruct (build_graph_ok nodes edges Hsrc) as (graph & Hbuild & Hdom & Harc).
  exists graph. split; [done|]. split; [done|].
  pose proof (arc_in_universe nodes edges graph Harc) as Hclosed.
  pose proof (for_nodes_correct graph _ Hclosed depth nodes fresh
                (inv_fresh _ _) eq_refl
                (λ nd, node_in_universe nodes edges nd)) as Hcorrect.
  pose proof (check_is_dag_run_steps depth nodes edges) as Hsteps.
  unfold check_is_dag_run in *. rewrite Hbuild in *.
  destruct (for_nodes depth graph nodes fresh) as [[r st] log].
  cbn in Hsteps.
  assert (Hpost : match r with
                  | Ret false => ∃ c, tc (arc graph) c c
                  | Ret true =>
                      inv graph (universe nodes edges) st ∧ rec_stack st = ∅ ∧
                      visited fresh ⊆ visited st ∧
                      ∀ node, node ∈ nodes → Node.id node ∈ visited st
                  | _ => False
                  end).
  { apply Hcorrect. cbn. etrans; [|done]. apply subseteq_size. set_solver. }
  destruct r as [[]|]; [| |done..].
  - by destruct Hpost as (? & ? & _ & ?).
  - destruct Hpost as [c Hc]. exists c.
    eapply tc_mono; [|done]. intros a b. apply Harc.
Qed.

(** ** Permuted inputs *)

Lemma edge_rel_perm edges edges' u v :
  edges ≡ₚ edges' → edge_rel edges u v → edge_rel edges' u v.
Proof.
  intros He (e & Hin & Hs & Ht). exists e. split; [|done]. by rewrite <- He.
Qed.

Lemma acyclic_perm edges edges' :
  edges ≡ₚ edges' → acyclic edges → acyclic edges'.
Proof.
  intros He Hac v Hcyc. apply (Hac v).
  eapply tc_mono; [|done]. intros a b. by apply edge_rel_perm.
Qed.

Lemma edge_rel_same_members edges edges' :
  (∀ e, e ∈ edges ↔ e ∈ edges') →
  ∀ u v, edge_rel edges u v ↔ edge_rel edges' u v.
Proof.
  intros Hmem u v.
  split; intros (e & He & Hs & Ht); exists e; (split; [by apply Hmem|done]).
Qed.

Lemma first_unknown_source nodes edges :
  ¬ sources_known nodes edges →
  ∃ pre e post, edges = pre ++ e :: post ∧ sources_known nodes pre ∧
                Edge.source e ∉ node_ids nodes.
Proof.
  unfold sources_known. induction edges as [|e edges IH]; intros Hsrc.
  - destruct Hsrc. apply Forall_nil_2.
  - destruct (decide (Edge.source e ∈ node_ids nodes)) as [He|He].
    + destruct IH as (pre & e' & post & -> & Hpre & He').
      { intros Hrest. apply Hsrc. by apply Forall_cons_2. }
      exists (e :: pre), e', post. split_and!; [done| |done].
      by apply Forall_cons_2.
    + exists [], e, edges. split_and!; [done|apply Forall_nil_2|done].
Qed.

Lemma universe_perm nodes nodes' edges edges' :
  nodes ≡ₚ nodes' → edges ≡ₚ edges' →
  universe nodes edges = universe nodes' edges'.
Proof.
  intros Hn He. unfold universe. rewrite (node_ids_perm _ _ Hn).
  f_equal. apply set_eq. intros k. rewrite !elem_of_list_to_set. by rewrite He.
Qed.

(** ** What a returned boolean means, at any depth *)

Lemma check_is_dag_false_cycle depth nodes edges :
  check_is_dag depth nodes edges = Ret false → has_directed_cycle edges.
Proof.
  unfold check_is_dag, check_is_dag_run. intros Hrun.
  destruct (build_graph nodes edges) as [graph|] eqn:Hbuild; [|done].
  pose proof (build_graph_returns_known _ _ _ Hbuild) as Hsrc.
  destruct (build_graph_ok nodes edges Hsrc) as (graph' & Hbuild' & _ & Harc).
  assert (graph' = graph) as -> by congruence.
  pose proof (for_nodes_stack depth graph nodes fresh eq_refl) as Hstack.
  destruct (for_nodes depth graph nodes fresh) as [[r st] log]. cbn in Hrun.
  subst r. destruct Hstack as (c & _ & Hcyc).
  exists c. eapply tc_mono; [|done]. intros a b. apply Harc.
Qed.

Lemma check_is_dag_true_acyclic depth nodes edges :
  check_is_dag depth nodes edges = Ret true →
  sources_known nodes edges ∧ acyclic edges.
Proof.
  intros [Hsrc Hiff]%check_is_dag_sound. split; [done|]. by apply Hiff.
Qed.

Lemma acyclic_is_dag depth nodes edges :
  sources_known nodes edges → size (universe nodes edges) ≤ depth →
  acyclic edges → check_is_dag depth nodes edges = Ret true.
Proof.
  intros Hsrc Hdepth Hac.
  destruct (check_is_dag_returns depth nodes edges Hsrc Hdepth) as (b & -> & Hiff).
  f_equal. by apply Hiff.
Qed.

Lemma cycle_is_not_dag depth nodes edges :
  sources_known nodes edges → size (universe nodes edges) ≤ depth →
  has_directed_cycle edges → check_is_dag depth nodes edges = Ret false.
Proof.
  intros Hsrc Hdepth Hcyc.
  destruct (check_is_dag_returns depth nodes edges Hsrc Hdepth) as (b & -> & Hiff).
  f_equal. destruct b; [|done].
  by apply acyclic_iff_no_cycle in Hcyc; [|apply Hiff].
Qed.

(** The chain with its nodes in the order of the chain. *)
Lemma chain_overflow depth m :
  depth ≤ m →
  check_is_dag depth (chain_nodes m) (chain_edges m) = Raise RecursionError.
Proof.
  intros Hdepth.
  pose proof (endpoints_sources_known _ _ (chain_endpoints_known m)) as Hsrc.
  unfold chain_nodes in *. change (seq 0 (S m)) with (0 :: seq 1 m) in *.
  rewrite fmap_cons in *. by apply chain_forward_overflow.
Qed.

(** * The properties stated by the specification *)

(** ** The answer is right (C1) *)

(** C1 (fails on the code as stated).  The node list of the chain
    [name 0 -> ... -> name 1000] has ids of its own, the ends of its
    edges are node ids and it has no cycle; [has_cycle] nests one call
    per node of the chain, and with a depth of 1000, the default limit
    of the interpreter, the call ends in [RecursionError] and returns no
    boolean. *)
Lemma long_chain_recursion_error :
  unique_ids (chain_nodes 1000) ∧
  endpoints_known (chain_nodes 1000) (chain_edges 1000) ∧
  acyclic (chain_edges 1000) ∧
  check_is_dag 1000 (chain_nodes 1000) (chain_edges 1000)
    = Raise RecursionError.
Proof.
  split_and!;
    [apply chain_unique_ids|apply chain_endpoints_known|apply chain_acyclic|].
  by apply chain_overflow.
Qed.

(** C1, amended.  For nodes with ids of their own, no more of them than
    the depth, and edges whose sources and targets are among the node
    ids, [check_is_dag] returns [true] when the induced graph has no
    directed cycle and [false] when it has one.  At any depth a boolean
    that is returned is the right one, and the call ends in a boolean or
    in [RecursionError]. *)
Theorem check_is_dag_correct depth nodes edges :
  unique_ids nodes →
  endpoints_known nodes edges →
  (length nodes ≤ depth →
   (acyclic edges → check_is_dag depth nodes edges = Ret true) ∧
   (has_directed_cycle edges → check_is_dag depth nodes edges = Ret false)) ∧
  (check_is_dag depth nodes edges = Ret true → acyclic edges) ∧
  (check_is_dag depth nodes edges = Ret false → has_directed_cycle edges) ∧
  (check_is_dag depth nodes edges = Raise RecursionError ∨
   ∃ b, check_is_dag depth nodes edges = Ret b).
Proof.
  intros Huniq Hend.
  pose proof (endpoints_sources_known _ _ Hend) as Hsrc.
  split_and!.
  - intros Hdepth.
    assert (size (universe nodes edges) ≤ depth)
      by (by rewrite universe_endpoints_known, size_node_ids_unique).
    split; [by apply acyclic_is_dag|by apply cycle_is_not_dag].
  - by intros [_ ?]%check_is_dag_true_acyclic.
  - apply check_is_dag_false_cycle.
  - by apply check_is_dag_outcome.
Qed.

Lemma chain_abc_acyclic : acyclic [edge "a" "b"; edge "b" "c"].
Proof.
  apply (acyclic_of_rank _
           (λ s, if decide (s = "a") then 0 else if decide (s = "b") then 1 else 2)).
  intros u v (e & He & <- & <-).
  apply elem_of_cons in He as [->|He]; [vm_compute; lia|].
  apply list_elem_of_singleton in He as ->. vm_compute. lia.
Qed.

Lemma triangle_abc_cycle :
  has_directed_cycle [edge "a" "b"; edge "b" "c"; edge "c" "a"].
Proof.
  exists "a".
  apply tc_l with "b"; [exists (edge "a" "b"); split_and!; [set_solver|done..]|].
  apply tc_l with "c"; [exists (edge "b" "c"); split_and!; [set_solver|done..]|].
  apply tc_once. exists (edge "c" "a"). split_and!; [set_solver|done..].
Qed.

Lemma check_is_dag_correct_witness :
  check_is_dag 3 [node "a"; node "b"; node "c"] [edge "a" "b"; edge "b" "c"]
    = Ret true ∧
  check_is_dag 3 [node "a"; node "b"; node "c"]
               [edge "a" "b"; edge "b" "c"; edge "c" "a"]
    = Ret false.
Proof.
  split.
  - apply (check_is_dag_correct 3 [node "a"; node "b"; node "c"]
                                [edge "a" "b"; edge "b" "c"]).
    + by_evaluation.
    + by_evaluation.
    + cbn. lia.
    + exact chain_abc_acyclic.
  - apply (check_is_dag_correct 3 [node "a"; node "b"; node "c"]
                                [edge "a" "b"; edge "b" "c"; edge "c" "a"]).
    + by_evaluation.
    + by_evaluation.
    + cbn. lia.
    + exact triangle_abc_cycle.
Defined.

(** ** Edges with an unknown source (C2) *)

(** The general fact behind C2: as soon as one edge has a source that is
    not a node id, line 65 raises [KeyError]; no boolean is returned. *)
Lemma dangling_source_never_returns depth nodes edges :
  ¬ sources_known nodes edges → returned (check_is_dag depth nodes edges) = None.
Proof.
  intros Hsrc.
  destruct (check_is_dag_raises depth nodes edges Hsrc) as (e & _ & _ & ->).
  done.
Qed.

(** C2 (fails on the code).  The claim says an edge whose source is absent
    from the node list raises no error.  On nodes [a] and the edge [x -> a]
    the subscript [graph[edge.source]] of line 65 raises [KeyError "x"],
    at every depth. *)
Example dangling_source_raises depth :
  check_is_dag depth [node "a"] [edge "x" "a"] = Raise (KeyError "x").
Proof. vm_compute. reflexivity. Qed.

(** ** The record returned by the handler (C3) *)

(** C3 (fails on the code).  The claim says the handler returns the
    record for every pipeline.  On nodes [a] and the edge [x -> a] the
    call of [check_is_dag] raises [KeyError "x"] at line 65 and the
    handler returns no record, at every depth. *)
Example parse_pipeline_unknown_source_raises depth :
  parse_pipeline depth (Pipeline.mk [node "a"] [edge "x" "a"])
  = Raise (KeyError "x").
Proof. vm_compute. reflexivity. Qed.

(** When [check_is_dag] returns, the handler returns the record with the
    two list lengths and the boolean. *)
Lemma parse_pipeline_returns depth pipeline b :
  check_is_dag depth (Pipeline.nodes pipeline) (Pipeline.edges pipeline) = Ret b →
  parse_pipeline depth pipeline
  = Ret {| num_nodes := length (Pipeline.nodes pipeline);
           num_edges := length (Pipeline.edges pipeline);
           is_dag := b |}.
Proof. intros Hb. unfold parse_pipeline. by rewrite Hb. Qed.

(** ** The empty pipeline (C4) *)

(** C4.  On the empty input the handler returns [is_dag = true],
    [num_nodes = 0] and [num_edges = 0], at every depth. *)
Example empty_pipeline depth :
  check_is_dag depth [] [] = Ret true ∧
  parse_pipeline depth (Pipeline.mk [] []) = Ret (Response 0 0 true).
Proof. split; vm_compute; reflexivity. Qed.

(** ** Duplicate node ids (C5) *)

Lemma endpoints_known_cons nd nodes edges :
  endpoints_known nodes edges → endpoints_known (nd :: nodes) edges.
Proof.
  intros Hend. eapply Forall_impl; [done|].
  intros e. unfold node_ids. rewrite fmap_cons, list_to_set_cons. set_solver.
Qed.

Lemma chain_duplicate_head m : ¬ unique_ids (node (name 0) :: chain_nodes m).
Proof.
  unfold unique_ids. rewrite fmap_cons. intros [Hnin _]%NoDup_cons.
  apply Hnin. rewrite chain_nodes_ids.
  apply list_elem_of_fmap. exists 0. split; [done|]. apply elem_of_seq. lia.
Qed.

Lemma chain_duplicate_head_overflow depth m :
  depth ≤ m →
  check_is_dag depth (node (name 0) :: chain_nodes m) (chain_edges m)
  = Raise RecursionError.
Proof.
  intros Hdepth. apply chain_forward_overflow; [done| |done].
  apply endpoints_sources_known, endpoints_known_cons, chain_endpoints_known.
Qed.

(** C5 (fails on the code as stated).  The chain
    [name 0 -> ... -> name 1000] with its first node listed twice has a
    repeated id and every end of an edge among the node ids; with a depth
    of 1000 the call ends in [RecursionError]. *)
Lemma duplicate_ids_recursion_error :
  ¬ unique_ids (node (name 0) :: chain_nodes 1000) ∧
  endpoints_known (node (name 0) :: chain_nodes 1000) (chain_edges 1000) ∧
  check_is_dag 1000 (node (name 0) :: chain_nodes 1000) (chain_edges 1000)
    = Raise RecursionError.
Proof.
  split_and!.
  - apply chain_duplicate_head.
  - apply endpoints_known_cons, chain_endpoints_known.
  - apply chain_duplicate_head_overflow, le_n.
Qed.

(** C5, amended.  With duplicate node ids, both ends of every edge among
    the node ids and no more distinct ids than the depth, [check_is_dag]
    returns a boolean. *)
Theorem duplicate_ids_no_crash depth nodes edges :
  ¬ unique_ids nodes →
  endpoints_known nodes edges →
  size (node_ids nodes) ≤ depth →
  ∃ b, check_is_dag depth nodes edges = Ret b.
Proof.
  intros _ Hend Hdepth.
  destruct (check_is_dag_returns depth nodes edges
              (endpoints_sources_known _ _ Hend)) as (b & Hrun & _).
  { by rewrite universe_endpoints_known. }
  by exists b.
Qed.

Lemma duplicate_ids_no_crash_witness :
  ∃ b, check_is_dag 2 [node "a"; node "a"; node "b"] [edge "a" "b"] = Ret b.
Proof.
  apply (duplicate_ids_no_crash 2 [node "a"; node "a"; node "b"] [edge "a" "b"]).
  - by_evaluation.
  - by_evaluation.
  - vm_compute. lia.
Defined.

(** ** Self-loops (C6) *)

(** When every edge source is a node id and the depth covers the ids, a
    self-loop makes the result [false]. *)
Lemma self_loop_not_dag depth nodes edges e :
  sources_known nodes edges → size (universe nodes edges) ≤ depth →
  e ∈ edges → Edge.source e = Edge.target e →
  check_is_dag depth nodes edges = Ret false.
Proof.
  intros Hsrc Hdepth He Hloop. apply cycle_is_not_dag; [done..|].
  by eapply self_loop_cycle.
Qed.

(** Whatever the other edges and the depth are, an input with a
    self-loop never gets the answer [true]. *)
Lemma self_loop_never_dag depth nodes edges e :
  e ∈ edges → Edge.source e = Edge.target e →
  returned (check_is_dag depth nodes edges) ≠ Some true.
Proof.
  intros He Hloop Hret.
  destruct (check_is_dag depth nodes edges) as [[]|] eqn:Hrun; try done.
  apply check_is_dag_true_acyclic in Hrun as [_ Hac].
  pose proof (self_loop_cycle edges e He Hloop) as Hcyc.
  by apply acyclic_iff_no_cycle in Hac.
Qed.

(** C6 (fails on the code).  The claim says every input with a self-loop
    on a node id returns [false].  Nodes [a] with the edges [a -> a] and
    [x -> a] contain such a self-loop, and the call raises [KeyError "x"]
    at line 65 before the traversal starts, at every depth. *)
Example self_loop_unknown_source_raises depth :
  check_is_dag depth [node "a"] [edge "a" "a"; edge "x" "a"]
  = Raise (KeyError "x").
Proof. vm_compute. reflexivity. Qed.

(** ** The order of nodes and edges (C7) *)

(** C7 (fails on the code as stated).  The nodes of the chain
    [name 0 -> ... -> name 1000] in the order of the chain and in the
    reverse order are permutations of each other.  With a depth of 1000
    the first order nests a call per node and ends in [RecursionError];
    in the reverse order every call finds its neighbour finished and the
    record is returned. *)
Lemma permutation_changes_outcome :
  chain_nodes 1000 ≡ₚ reverse (chain_nodes 1000) ∧
  chain_edges 1000 ≡ₚ chain_edges 1000 ∧
  returned (parse_pipeline 1000
              (Pipeline.mk (chain_nodes 1000) (chain_edges 1000)))
  = None ∧
  returned (parse_pipeline 1000
              (Pipeline.mk (reverse (chain_nodes 1000)) (chain_edges 1000)))
  = Some {| num_nodes := 1001; num_edges := 1000; is_dag := true |}.
Proof.
  split_and!; [by rewrite reverse_Permutation|done| |].
  - unfold parse_pipeline. cbn [Pipeline.nodes Pipeline.edges].
    by rewrite chain_overflow.
  - unfold parse_pipeline. cbn [Pipeline.nodes Pipeline.edges].
    rewrite chain_reversed_returns.
    by rewrite length_reverse, chain_nodes_length, chain_edges_length.
Qed.

Lemma check_is_dag_perm_sound depth nodes nodes' edges edges' b b' :
  edges ≡ₚ edges' →
  check_is_dag depth nodes edges = Ret b →
  check_is_dag depth nodes' edges' = Ret b' →
  b = b'.
Proof.
  intros He [_ Hb]%check_is_dag_sound [_ Hb']%check_is_dag_sound.
  destruct b, b'; try done.
  - assert (false = true); [|done].
    apply Hb', (acyclic_perm edges); [done|]. by apply Hb.
  - assert (false = true); [|done].
    apply Hb, (acyclic_perm edges'); [done|]. by apply Hb'.
Qed.

Lemma check_is_dag_perm depth nodes nodes' edges edges' :
  nodes ≡ₚ nodes' → edges ≡ₚ edges' →
  size (universe nodes edges) ≤ depth →
  returned (check_is_dag depth nodes edges)
  = returned (check_is_dag depth nodes' edges').
Proof.
  intros Hn He Hdepth.
  assert (Hdepth' : size (universe nodes' edges') ≤ depth)
    by by rewrite <- (universe_perm nodes nodes' edges edges').
  destruct (decide (sources_known nodes edges)) as [Hsrc|Hsrc].
  - pose proof (sources_known_perm _ _ _ _ Hn He Hsrc) as Hsrc'.
    destruct (check_is_dag_returns _ _ _ Hsrc Hdepth) as (b & Hb & _).
    destruct (check_is_dag_returns _ _ _ Hsrc' Hdepth') as (b' & Hb' & _).
    rewrite Hb, Hb'. cbn. f_equal. by eapply check_is_dag_perm_sound.
  - rewrite (dangling_source_never_returns _ _ _ Hsrc).
    rewrite dangling_source_never_returns; [done|].
    intros Hsrc'. apply Hsrc. by eapply sources_known_perm.
Qed.

(** C7, amended.  Permuting the node list and the edge list changes none
    of [is_dag], [num_nodes] and [num_edges] when the depth covers the
    distinct ids: the record the handler returns is the same (and when
    one call returns none, so does the other).  At any depth two records
    that are returned are the same. *)
Theorem permutation_invariant depth nodes nodes' edges edges' :
  nodes ≡ₚ nodes' → edges ≡ₚ edges' →
  (size (universe nodes edges) ≤ depth →
   returned (parse_pipeline depth (Pipeline.mk nodes edges))
   = returned (parse_pipeline depth (Pipeline.mk nodes' edges'))) ∧
  (∀ r r',
     parse_pipeline depth (Pipeline.mk nodes edges) = Ret r →
     parse_pipeline depth (Pipeline.mk nodes' edges') = Ret r' →
     r = r').
Proof.
  intros Hn He. unfold parse_pipeline. cbn [Pipeline.nodes Pipeline.edges].
  rewrite (Permutation_length Hn), (Permutation_length He). split.
  - intros Hdepth. pose proof (check_is_dag_perm _ _ _ _ _ Hn He Hdepth) as Hret.
    destruct (check_is_dag depth nodes edges),
      (check_is_dag depth nodes' edges'); cbn in *; congruence.
  - intros r r'.
    destruct (check_is_dag depth nodes edges) as [b|] eqn:Hb; [|done].
    destruct (check_is_dag depth nodes' edges') as [b'|] eqn:Hb'; [|done].
    intros [= <-] [= <-]. f_equal. by eapply check_is_dag_perm_sound.
Qed.

Lemma permutation_invariant_witness :
  returned (parse_pipeline 3 (Pipeline.mk [node "a"; node "b"; node "c"]
                                [edge "a" "b"; edge "b" "c"; edge "c" "a"]))
  = returned (parse_pipeline 3 (Pipeline.mk [node "b"; node "a"; node "c"]
                                  [edge "a" "b"; edge "c" "a"; edge "b" "c"])).
Proof.
  apply permutation_invariant.
  - apply perm_swap.
  - apply perm_skip, perm_swap.
  - vm_compute. lia.
Defined.

(** ** One answer per input, no state kept (C8) *)

(** Were the two sets kept from one call to the next, the answer would
    change: on the self-loop [a -> a] the first call ends in the state
    below, and the loop of lines 85-88 started in it skips [a]. *)
Example stale_sets_change_the_answer :
  match build_graph [node "a"] [edge "a" "a"] with
  | Ret graph =>
      let first := for_nodes 2 graph [node "a"] fresh in
      first.1.1 = Ret false ∧
      (for_nodes 2 graph [node "a"] first.1.2).1.1 = Ret true
  | _ => False
  end.
Proof. vm_compute. split; reflexivity. Qed.



(** ** The stack is part of the visited set (C9) *)

(** C9.  In every state of every run of [check_is_dag] the recursion stack
    is a subset of the visited set, so that in each of them "on the stack"
    and "visited and on the stack" are the same test; the loop written
    with the test of the specification computes what the code computes. *)
Theorem rec_stack_subset_visited depth nodes edges :
  rec_stack fresh ⊆ visited fresh ∧
  Forall (λ s, rec_stack (after s) ⊆ visited (after s))
         (check_is_dag_run depth nodes edges).2 ∧
  rec_stack (check_is_dag_run depth nodes edges).1.2
    ⊆ visited (check_is_dag_run depth nodes edges).1.2 ∧
  Forall (λ s, ∀ n, n ∈ rec_stack (after s)
                    ↔ n ∈ visited (after s) ∧ n ∈ rec_stack (after s))
         (check_is_dag_run depth nodes edges).2 ∧
  ∀ rec ns st, for_successors_spec rec ns st = for_neighbors rec ns st.
Proof.
  pose proof (check_is_dag_run_steps depth nodes edges) as Hrun.
  pose proof (ok_states _ _ _ _ Hrun) as Hstates.
  split_and!.
  - done.
  - eapply Forall_impl; [done|]. by intros s [? _].
  - by destruct (ok_final_state _ _ _ _ Hrun).
  - eapply Forall_impl; [done|]. intros s [Hsub _] n. set_solver.
  - intros rec ns. induction ns as [|n ns IH]; intros st; [done|]. cbn.
    destruct (decide (n ∉ visited st)) as [Hnew|Hold].
    + destruct (rec n st) as [[r st1] log1].
      destruct r as [[]|]; try done. by rewrite IH.
    + apply dec_stable in Hold.
      destruct (decide (n ∈ rec_stack st)).
      * by rewrite decide_True.
      * rewrite decide_False; [done|]. by intros [_ ?].
Qed.

(** ** Termination and the number of calls (C10) *)

(** C10.  With every edge source among the node ids, a run of
    [check_is_dag] ends, in a boolean or, when the depth is used up, in
    [RecursionError]; with one unit of depth per id it ends in a boolean,
    so the recursion need never be deeper than the number of ids.
    [has_cycle] is only called on an id that is not visited, [visited]
    only grows, no id is entered twice, the calls are as many as the ids
    visited in the end, and neither their number nor the size of the
    recursion stack exceeds the number of ids. *)
Theorem check_is_dag_terminates depth nodes edges :
  sources_known nodes edges →
  ∃ r st log,
    check_is_dag_run depth nodes edges = (r, st, log) ∧
    (r = Raise RecursionError ∨ ∃ b, r = Ret b) ∧
    (size (universe nodes edges) ≤ depth → ∃ b, r = Ret b) ∧
    Forall enter_unvisited log ∧
    grows fresh log ∧
    NoDup (calls log) ∧
    length (calls log) = size (visited st) ∧
    visited st ⊆ universe nodes edges ∧
    length (calls log) ≤ size (universe nodes edges) ∧
    Forall (λ s, size (rec_stack (after s)) ≤ size (universe nodes edges)) log.
Proof.
  intros Hsrc.
  pose proof (check_is_dag_run_steps depth nodes edges) as Hok.
  pose proof (check_is_dag_outcome depth nodes edges Hsrc) as Hout.
  pose proof (check_is_dag_returns depth nodes edges Hsrc) as Hret.
  unfold check_is_dag in *.
  destruct (check_is_dag_run depth nodes edges) as [[r st] log]. cbn in *.
  exists r, st, log.
  destruct Hok as [Hstates Hfinal Hlast Hgrows Henter Hvis Hnodup Hnew].
  destruct Hlast as [Hsub Huniv].
  assert (Hcalls : length (calls log) = size (visited st)).
  { rewrite Hvis. cbn. rewrite (left_id_L ∅ (∪)).
    symmetry. by apply size_list_to_set. }
  split_and!; try done.
  - intros Hdepth. destruct (Hret Hdepth) as (b & Hb & _). by exists b.
  - rewrite Hcalls. by apply subseteq_size.
  - eapply Forall_impl; [exact Hstates|]. intros s [Hs Hu]. cbn.
    apply subseteq_size. set_solver.
Qed.

Lemma check_is_dag_terminates_witness :
  ∃ r st log,
    check_is_dag_run 3 [node "a"; node "b"] [edge "a" "b"; edge "b" "x"]
      = (r, st, log) ∧
    (r = Raise RecursionError ∨ ∃ b, r = Ret b) ∧
    (size (universe [node "a"; node "b"] [edge "a" "b"; edge "b" "x"]) ≤ 3 →
     ∃ b, r = Ret b) ∧
    Forall enter_unvisited log ∧
    grows fresh log ∧
    NoDup (calls log) ∧
    length (calls log) = size (visited st) ∧
    visited st ⊆ universe [node "a"; node "b"] [edge "a" "b"; edge "b" "x"] ∧
    length (calls log)
      ≤ size (universe [node "a"; node "b"] [edge "a" "b"; edge "b" "x"]) ∧
    Forall (λ s, size (rec_stack (after s))
                 ≤ size (universe [node "a"; node "b"]
                                  [edge "a" "b"; edge "b" "x"])) log.
Proof.
  apply (check_is_dag_terminates 3 [node "a"; node "b"]
                                 [edge "a" "b"; edge "b" "x"]).
  by_evaluation.
Defined.

(** * Further properties of the code *)

(** ** The adjacency map (lines 63-65) *)

(** X1.  When every edge source is a node id, the dictionary built by
    lines 63-65 has exactly the node ids as keys, and the list stored for
    an id holds the targets of its outgoing edges in the order of the edge
    list, a repeated edge being listed as often as it occurs. *)
Theorem build_graph_adjacency nodes edges :
  sources_known nodes edges →
  ∃ graph, build_graph nodes edges = Ret graph ∧
    dom graph = node_ids nodes ∧
    ∀ u, neighbors graph u = targets_of edges u.
Proof. apply build_graph_exact. Qed.

Lemma build_graph_adjacency_witness :
  ∃ graph,
    build_graph [node "a"; node "b"] [edge "a" "b"; edge "a" "a"; edge "a" "b"]
      = Ret graph ∧
    dom graph = node_ids [node "a"; node "b"] ∧
    ∀ u, neighbors graph u
         = targets_of [edge "a" "b"; edge "a" "a"; edge "a" "b"] u.
Proof.
  apply (build_graph_adjacency [node "a"; node "b"]
           [edge "a" "b"; edge "a" "a"; edge "a" "b"]).
  by_evaluation.
Defined.

Lemma check_is_dag_first_unknown depth nodes pre e post :
  sources_known nodes pre →
  Edge.source e ∉ node_ids nodes →
  check_is_dag depth nodes (pre ++ e :: post) = Raise (KeyError (Edge.source e)).
Proof.
  intros Hpre He.
  destruct (add_edges_exact pre (init_graph nodes)) as (graph & Hrun & Hdom & _).
  { by rewrite init_graph_dom. }
  unfold check_is_dag, check_is_dag_run, build_graph.
  rewrite add_edges_app, Hrun. cbn.
  assert (graph !! Edge.source e = None) as ->; [|done].
  apply not_elem_of_dom. by rewrite Hdom, init_graph_dom.
Qed.

(** X2.  The [KeyError] of line 65 names the source of the first edge, in
    the order of the edge list, whose source is not a node id; the edges
    after it are not looked at, and the depth plays no part. *)
Theorem key_error_first_unknown_source depth nodes pre e post :
  sources_known nodes pre →
  Edge.source e ∉ node_ids nodes →
  check_is_dag depth nodes (pre ++ e :: post) = Raise (KeyError (Edge.source e)).
Proof. apply check_is_dag_first_unknown. Qed.

Lemma key_error_first_unknown_source_witness :
  check_is_dag 900 [node "a"; node "b"]
               ([edge "a" "b"] ++ edge "x" "a" :: [edge "y" "b"; edge "b" "a"])
  = Raise (KeyError "x").
Proof.
  apply (key_error_first_unknown_source 900 [node "a"; node "b"]
           [edge "a" "b"] (edge "x" "a") [edge "y" "b"; edge "b" "a"]).
  - by_evaluation.
  - by_evaluation.
Defined.

(** ** [has_cycle] in any state (lines 70-83) *)

(** X3.  A call of [has_cycle] raises no [KeyError], whatever the
    adjacency map, the node and the contents of the two sets:
    [rec_stack.remove] of line 82 always finds the id that line 73 added.
    The call returns a boolean unless the depth is used up, which ends
    it in [RecursionError]. *)
Theorem has_cycle_never_raises depth graph n st :
  (has_cycle depth graph n st).1.1 = Raise RecursionError ∨
  ∃ b, (has_cycle depth graph n st).1.1 = Ret b.
Proof.
  pose proof (has_cycle_keeps_stack depth graph n st) as H.
  destruct (has_cycle depth graph n st) as [[r st'] log]. cbn.
  destruct r as [b|[k|]]; [by eauto|done|by left].
Qed.

(** X4.  Lines 73 and 82 are balanced: started on an unvisited node in a
    state whose stack is part of [visited], a call of [has_cycle] that
    returns [False] leaves [rec_stack] exactly as it found it, has only
    added to [visited], and has visited its node. *)
Theorem has_cycle_restores_stack depth graph n st st' log :
  rec_stack st ⊆ visited st → n ∉ visited st →
  has_cycle depth graph n st = (Ret false, st', log) →
  rec_stack st' = rec_stack st ∧ visited st ⊆ visited st' ∧ n ∈ visited st'.
Proof.
  intros Hsub Hnew Hrun.
  pose proof (has_cycle_stack depth graph n st Hsub Hnew) as H.
  by rewrite Hrun in H.
Qed.

Lemma has_cycle_restores_stack_witness :
  let graph : gmap string (list string) := <["a" := ["b"; "c"]]> ∅ in
  let st := State {["z"]} {["z"]} in
  rec_stack (has_cycle 3 graph "a" st).1.2 = rec_stack st ∧
  visited st ⊆ visited (has_cycle 3 graph "a" st).1.2 ∧
  "a" ∈ visited (has_cycle 3 graph "a" st).1.2.
Proof.
  intros graph st.
  apply (has_cycle_restores_stack 3 graph "a" st
           (has_cycle 3 graph "a" st).1.2 (has_cycle 3 graph "a" st).2).
  - by_evaluation.
  - by_evaluation.
  - vm_compute. reflexivity.
Defined.

(** ** What a run of [check_is_dag] ends in (lines 85-90) *)

(** X5.  When a run answers [False], the recursion stack it ends with
    holds an id that lies on a directed cycle of the supplied edges: the
    two [return True] of lines 78 and 80 leave without line 82, so the
    path to the back edge stays on the stack.  This holds for any depth. *)
Theorem cycle_left_on_stack depth nodes edges st log :
  check_is_dag_run depth nodes edges = (Ret false, st, log) →
  ∃ c, c ∈ rec_stack st ∧ tc (edge_rel edges) c c.
Proof.
  unfold check_is_dag_run. intros Hrun.
  destruct (build_graph nodes edges) as [graph|] eqn:Hbuild; [|done..].
  pose proof (build_graph_returns_known _ _ _ Hbuild) as Hsrc.
  destruct (build_graph_ok nodes edges Hsrc) as (graph' & Hbuild' & _ & Harc).
  assert (graph' = graph) as -> by congruence.
  pose proof (for_nodes_stack depth graph nodes fresh eq_refl) as Hstack.
  rewrite Hrun in Hstack. destruct Hstack as (c & Hc & Hcyc).
  exists c. split; [done|]. eapply tc_mono; [|done]. intros a b. apply Harc.
Qed.

Lemma cycle_left_on_stack_witness :
  ∃ c, c ∈ rec_stack
             (check_is_dag_run 3 [node "a"; node "b"; node "c"]
                [edge "a" "b"; edge "b" "c"; edge "c" "b"]).1.2 ∧
       tc (edge_rel [edge "a" "b"; edge "b" "c"; edge "c" "b"]) c c.
Proof.
  apply (cycle_left_on_stack 3 [node "a"; node "b"; node "c"]
           [edge "a" "b"; edge "b" "c"; edge "c" "b"] _
           (check_is_dag_run 3 [node "a"; node "b"; node "c"]
              [edge "a" "b"; edge "b" "c"; edge "c" "b"]).2).
  vm_compute. reflexivity.
Defined.

(** ** The answer on any input with known sources *)

(** X6.  On every input whose edge sources are node ids, also when node
    ids repeat and when edge targets are no node ids (line 75 reads a
    missing entry as the empty list), a returned [True] means that the
    edges have no directed cycle and a returned [False] that they have
    one; the call ends in a boolean or in [RecursionError]; and with one
    unit of depth per id it returns, [True] for every acyclic input and
    [False] for every cyclic one. *)
Theorem check_is_dag_iff_acyclic depth nodes edges :
  sources_known nodes edges →
  (check_is_dag depth nodes edges = Ret true → acyclic edges) ∧
  (check_is_dag depth nodes edges = Ret false → has_directed_cycle edges) ∧
  (check_is_dag depth nodes edges = Raise RecursionError ∨
   ∃ b, check_is_dag depth nodes edges = Ret b) ∧
  (size (universe nodes edges) ≤ depth →
   (acyclic edges → check_is_dag depth nodes edges = Ret true) ∧
   (has_directed_cycle edges → check_is_dag depth nodes edges = Ret false)).
Proof.
  intros Hsrc. split_and!.
  - by intros [_ ?]%check_is_dag_true_acyclic.
  - apply check_is_dag_false_cycle.
  - by apply check_is_dag_outcome.
  - intros Hdepth. split; [by apply acyclic_is_dag|by apply cycle_is_not_dag].
Qed.

Lemma check_is_dag_iff_acyclic_witness :
  check_is_dag 3 [node "a"; node "a"; node "b"]
               [edge "a" "b"; edge "b" "x"; edge "a" "x"] = Ret true.
Proof.
  apply (check_is_dag_iff_acyclic 3 [node "a"; node "a"; node "b"]
           [edge "a" "b"; edge "b" "x"; edge "a" "x"]).
  - by_evaluation.
  - vm_compute. lia.
  - apply (acyclic_of_rank _
             (λ s, if decide (s = "a") then 0
                   else if decide (s = "b") then 1 else 2)).
    intros u v (e & He & <- & <-).
    apply elem_of_cons in He as [->|He]; [vm_compute; lia|].
    apply elem_of_cons in He as [->|He]; [vm_compute; lia|].
    apply list_elem_of_singleton in He as ->. vm_compute. lia.
Defined.

(** ** What the answer depends on *)

Lemma for_nodes_no_arcs depth graph nodes st :
  (∀ n, neighbors graph n = []) → rec_stack st = ∅ →
  (for_nodes (S depth) graph nodes st).1.1 = Ret true.
Proof.
  intros Hnb. revert st. induction nodes as [|nd nodes IH]; intros st Hst;
    [done|].
  cbn [for_nodes]. case_decide; [|by apply IH].
  destruct (has_cycle_leaf depth graph (Node.id nd) st) as (st' & log & -> & _ & Hs).
  { intros m. rewrite Hnb. by intros ?%elem_of_nil. }
  assert (Hst' : rec_stack st' = ∅) by (rewrite Hs, Hst; set_solver).
  specialize (IH st' Hst').
  by destruct (for_nodes (S depth) graph nodes st') as [[r2 st2] log2].
Qed.

(** X7.  Without edges the answer is [True], whatever the nodes are and
    however often an id repeats, as soon as one call of [has_cycle] may
    be made: every call is one frame deep. *)
Theorem no_edges_is_dag depth nodes : check_is_dag (S depth) nodes [] = Ret true.
Proof.
  unfold check_is_dag, check_is_dag_run, build_graph. cbn [add_edges].
  apply for_nodes_no_arcs; [apply init_graph_neighbors|done].
Qed.

(** X8.  As long as every edge source is a node id, the answer depends
    on the supplied lists only through the set of (source, target) pairs
    of the edges: for two inputs with the same pairs, whatever their
    nodes, the order and the repetitions, two booleans that are returned
    are equal, and with depth for the ids of both inputs the two
    outcomes are equal. *)
Theorem answer_depends_on_edges_only depth nodes nodes' edges edges' :
  sources_known nodes edges →
  sources_known nodes' edges' →
  (∀ u v, edge_rel edges u v ↔ edge_rel edges' u v) →
  (∀ b b', check_is_dag depth nodes edges = Ret b →
           check_is_dag depth nodes' edges' = Ret b' → b = b') ∧
  (size (universe nodes edges) ≤ depth →
   size (universe nodes' edges') ≤ depth →
   check_is_dag depth nodes edges = check_is_dag depth nodes' edges').
Proof.
  intros Hsrc Hsrc' Hrel.
  assert (Hsame : ∀ b b', (b = true ↔ acyclic edges) →
                          (b' = true ↔ acyclic edges') → b = b').
  { intros b b' Hb Hb'. destruct b, b'; try done.
    - assert (false = true); [|done].
      apply Hb', (acyclic_subrel edges); [intros u v; apply Hrel|by apply Hb].
    - assert (false = true); [|done].
      apply Hb, (acyclic_subrel edges'); [intros u v; apply Hrel|by apply Hb']. }
  split.
  - intros b b' [_ Hb]%check_is_dag_sound [_ Hb']%check_is_dag_sound.
    by apply Hsame.
  - intros Hd Hd'.
    destruct (check_is_dag_returns depth nodes edges Hsrc Hd) as (b & -> & Hb).
    destruct (check_is_dag_returns depth nodes' edges' Hsrc' Hd')
      as (b' & -> & Hb').
    f_equal. by apply Hsame.
Qed.

Lemma answer_depends_on_edges_only_witness :
  check_is_dag 3 [node "a"; node "b"] [edge "a" "b"; edge "b" "a"]
  = check_is_dag 3 [node "b"; node "c"; node "a"; node "a"]
                   [edge "b" "a"; edge "a" "b"; edge "b" "a"].
Proof.
  apply answer_depends_on_edges_only.
  - by_evaluation.
  - by_evaluation.
  - apply edge_rel_same_members. intros e.
    rewrite !elem_of_cons, !elem_of_nil. tauto.
  - vm_compute. lia.
  - vm_compute. lia.
Defined.

(** X9.  Taking edges away from an input that is answered [True] never
    gives an input that is answered [False]: the smaller input is
    answered [True] or, its traversal nesting deeper, ends in
    [RecursionError]; with one unit of depth per id it is answered
    [True]. *)
Theorem removing_edges_keeps_dag depth nodes edges edges' :
  edges' ⊆ edges →
  check_is_dag depth nodes edges = Ret true →
  (check_is_dag depth nodes edges' = Ret true ∨
   check_is_dag depth nodes edges' = Raise RecursionError) ∧
  (size (universe nodes edges') ≤ depth →
   check_is_dag depth nodes edges' = Ret true).
Proof.
  intros Hsub [Hsrc Hac]%check_is_dag_true_acyclic.
  assert (Hsrc' : sources_known nodes edges').
  { apply Forall_forall. intros e He.
    by apply (proj1 (Forall_forall _ _) Hsrc), Hsub. }
  assert (Hac' : acyclic edges').
  { eapply acyclic_subrel; [|done].
    intros u v (e & He & Hs & Ht). exists e. split; [by apply Hsub|done]. }
  split; [|by intros; apply acyclic_is_dag].
  destruct (check_is_dag_outcome depth nodes edges' Hsrc') as [|[b Hb]];
    [by right|].
  left. rewrite Hb. f_equal.
  apply check_is_dag_sound in Hb as [_ Hiff]. by apply Hiff.
Qed.

Lemma removing_edges_keeps_dag_witness :
  check_is_dag 3 [node "a"; node "b"; node "c"] [edge "b" "c"] = Ret true.
Proof.
  apply (removing_edges_keeps_dag 3 [node "a"; node "b"; node "c"]
           [edge "a" "b"; edge "b" "c"; edge "a" "c"] [edge "b" "c"]).
  - intros e. rewrite !elem_of_cons, !elem_of_nil. tauto.
  - vm_compute. reflexivity.
  - vm_compute. lia.
Defined.

(** X10.  On an input that is answered [True], at any depth, the run ends
    with an empty recursion stack and with exactly the node ids and edge
    targets visited, and [has_cycle] has been called once on each of
    them and on nothing else. *)
Theorem dag_run_visits_every_id_once depth nodes edges :
  check_is_dag depth nodes edges = Ret true →
  ∃ st log,
    check_is_dag_run depth nodes edges = (Ret true, st, log) ∧
    rec_stack st = ∅ ∧
    visited st = universe nodes edges ∧
    calls log ≡ₚ elements (universe nodes edges).
Proof.
  intros Hrun.
  pose proof (check_is_dag_true_acyclic _ _ _ Hrun) as [Hsrc _].
  destruct (check_is_dag_run_full (depth `max` size (universe nodes edges))
              nodes edges Hsrc) as (graph & _ & Harc & Hpost); [lia|].
  unfold check_is_dag in Hrun.
  rewrite (check_is_dag_run_mono depth) in Hpost; [|lia|by rewrite Hrun].
  destruct (check_is_dag_run depth nodes edges) as [[r st] log]. cbn in Hrun.
  subst r. destruct Hpost as (Hinv & Hstack & Hall & Hok).
  exists st, log. split; [done|]. split; [done|].
  assert (Hvis : visited st = universe nodes edges).
  { apply set_eq. intros k. split; [apply (inv_univ _ _ _ Hinv)|].
    unfold universe, node_ids.
    rewrite elem_of_union, !elem_of_list_to_set, !list_elem_of_fmap.
    intros [(nd & -> & Hnd)|(e & -> & He)]; [by apply Hall|].
    assert (Hfin : Edge.target e ∈ finished st); [|unfold finished in Hfin; set_solver].
    apply (inv_closed _ _ _ Hinv (Edge.source e)).
    - pose proof (proj1 (Forall_forall _ _) Hsrc e He) as Hs.
      apply elem_of_list_to_set, list_elem_of_fmap in Hs as (nd & -> & Hnd).
      unfold finished. rewrite Hstack. specialize (Hall nd Hnd). set_solver.
    - apply Harc. by exists e. }
  split; [done|].
  pose proof (ok_visited _ _ _ _ Hok) as Hcalls. cbn in Hcalls.
  rewrite (left_id_L ∅ (∪)) in Hcalls.
  rewrite <- Hvis, Hcalls. symmetry.
  apply elements_list_to_set, (ok_calls _ _ _ _ Hok).
Qed.

Lemma dag_run_visits_every_id_once_witness :
  ∃ st log,
    check_is_dag_run 3 [node "a"; node "b"] [edge "a" "b"; edge "b" "x"]
      = (Ret true, st, log) ∧
    rec_stack st = ∅ ∧
    visited st = universe [node "a"; node "b"] [edge "a" "b"; edge "b" "x"] ∧
    calls log
      ≡ₚ elements (universe [node "a"; node "b"] [edge "a" "b"; edge "b" "x"]).
Proof.
  apply (dag_run_visits_every_id_once 3 [node "a"; node "b"]
           [edge "a" "b"; edge "b" "x"]).
  vm_compute. reflexivity.
Defined.

(** ** The handler (lines 37-55) *)

(** X11.  [parse_pipeline] ends in [KeyError] exactly when some edge has
    a source that is no node id, at any depth. *)
Theorem parse_pipeline_raises_iff depth pipeline :
  (∃ k, parse_pipeline depth pipeline = Raise (KeyError k))
  ↔ ¬ sources_known (Pipeline.nodes pipeline) (Pipeline.edges pipeline).
Proof.
  unfold parse_pipeline. split.
  - intros [k Hk] Hsrc.
    destruct (check_is_dag_outcome depth _ _ Hsrc) as [Hr|[b Hb]].
    + by rewrite Hr in Hk.
    + by rewrite Hb in Hk.
  - intros Hsrc.
    destruct (check_is_dag_raises depth _ _ Hsrc) as (e & _ & _ & ->).
    by eexists.
Qed.

Lemma parse_pipeline_raises_iff_witness :
  ∃ k, parse_pipeline 900 (Pipeline.mk [node "a"] [edge "a" "a"; edge "x" "a"])
       = Raise (KeyError k).
Proof.
  apply (parse_pipeline_raises_iff 900
           (Pipeline.mk [node "a"] [edge "a" "a"; edge "x" "a"])).
  by_evaluation.
Defined.

(** X12.  On a pipeline whose edge sources are node ids and whose distinct
    ids are no more than the depth, the handler returns the record with
    the two list lengths, and its [is_dag] is [True] exactly when the
    edges have no directed cycle. *)
Theorem parse_pipeline_end_to_end depth pipeline :
  sources_known (Pipeline.nodes pipeline) (Pipeline.edges pipeline) →
  size (universe (Pipeline.nodes pipeline) (Pipeline.edges pipeline)) ≤ depth →
  ∃ b,
    parse_pipeline depth pipeline
    = Ret {| num_nodes := length (Pipeline.nodes pipeline);
             num_edges := length (Pipeline.edges pipeline);
             is_dag := b |} ∧
    (b = true ↔ acyclic (Pipeline.edges pipeline)).
Proof.
  intros Hsrc Hdepth.
  destruct (check_is_dag_returns depth _ _ Hsrc Hdepth) as (b & Hb & Hiff).
  exists b. split; [|done]. unfold parse_pipeline. by rewrite Hb.
Qed.

Lemma parse_pipeline_end_to_end_witness :
  ∃ b,
    parse_pipeline 2
      (Pipeline.mk [node "a"; node "b"] [edge "a" "b"; edge "a" "b"])
    = Ret {| num_nodes := 2; num_edges := 2; is_dag := b |} ∧
    (b = true ↔ acyclic [edge "a" "b"; edge "a" "b"]).
Proof.
  apply (parse_pipeline_end_to_end 2
           (Pipeline.mk [node "a"; node "b"] [edge "a" "b"; edge "a" "b"])).
  - by_evaluation.
  - vm_compute. lia.
Defined.

(** ** The node list as a set *)

(** X13.  Replacing the node list by one with the same set of ids, in
    any order and with any repetitions, changes no returned boolean and
    no [KeyError]: with an unknown edge source both calls raise the same
    [KeyError], two booleans that are returned are equal, and with one
    unit of depth per id the two outcomes are equal. *)
Theorem check_is_dag_nodes_as_set depth nodes nodes' edges :
  node_ids nodes = node_ids nodes' →
  (¬ sources_known nodes edges →
   check_is_dag depth nodes edges = check_is_dag depth nodes' edges) ∧
  (∀ b b', check_is_dag depth nodes edges = Ret b →
           check_is_dag depth nodes' edges = Ret b' → b = b') ∧
  (size (universe nodes edges) ≤ depth →
   check_is_dag depth nodes edges = check_is_dag depth nodes' edges).
Proof.
  intros Hids.
  assert (Hraise : ¬ sources_known nodes edges →
            check_is_dag depth nodes edges = check_is_dag depth nodes' edges).
  { intros Hsrc.
    destruct (first_unknown_source nodes edges Hsrc)
      as (pre & e & post & -> & Hpre & He).
    rewrite !check_is_dag_first_unknown; try done;
      unfold sources_known in *; by rewrite <- Hids. }
  assert (Hsame : ∀ b b', check_is_dag depth nodes edges = Ret b →
                          check_is_dag depth nodes' edges = Ret b' → b = b').
  { intros b b' [_ Hb]%check_is_dag_sound [_ Hb']%check_is_dag_sound.
    destruct b, b'; try done.
    - assert (false = true); [|done]. by apply Hb', Hb.
    - assert (false = true); [|done]. by apply Hb, Hb'. }
  split_and!; [done..|].
  intros Hdepth. destruct (decide (sources_known nodes edges)) as [Hsrc|Hsrc];
    [|by apply Hraise].
  assert (Hsrc' : sources_known nodes' edges)
    by (unfold sources_known in *; by rewrite <- Hids).
  assert (Hdepth' : size (universe nodes' edges) ≤ depth)
    by (unfold universe in *; by rewrite <- Hids).
  destruct (check_is_dag_returns depth nodes edges Hsrc Hdepth) as (b & Hb & _).
  destruct (check_is_dag_returns depth nodes' edges Hsrc' Hdepth')
    as (b' & Hb' & _).
  rewrite Hb, Hb'. f_equal. by eapply Hsame.
Qed.

Lemma check_is_dag_nodes_as_set_witness :
  check_is_dag 900 [node "a"; node "b"; node "a"] [edge "a" "b"; edge "x" "a"]
  = check_is_dag 900 [node "b"; node "a"] [edge "a" "b"; edge "x" "a"].
Proof.
  apply check_is_dag_nodes_as_set.
  - by_evaluation.
  - by_evaluation.
Defined.

(** ** The recursion depth (lines 70-83) *)

(** X14.  Depth beyond what a run uses changes nothing: a run that does
    not end in [RecursionError] is the same run, with the same answer,
    final sets and steps, at every greater depth. *)
Theorem more_depth_same_run depth depth' nodes edges :
  depth ≤ depth' →
  (check_is_dag_run depth nodes edges).1.1 ≠ Raise RecursionError →
  check_is_dag_run depth' nodes edges = check_is_dag_run depth nodes edges.
Proof. apply check_is_dag_run_mono. Qed.

Lemma more_depth_same_run_witness :
  check_is_dag_run 900 [node "a"; node "b"] [edge "a" "b"]
  = check_is_dag_run 2 [node "a"; node "b"] [edge "a" "b"].
Proof.
  apply more_depth_same_run.
  - lia.
  - vm_compute. discriminate.
Defined.

(** X15.  On the chain [name 0 -> ... -> name m] with its nodes in the
    order of the chain, [has_cycle] nests one call per node: the call
    returns [True] when the depth is at least the number [m + 1] of
    nodes and ends in [RecursionError] otherwise. *)
Theorem chain_needs_its_length depth m :
  check_is_dag depth (chain_nodes m) (chain_edges m)
  = if decide (m < depth) then Ret true else Raise RecursionError.
Proof.
  case_decide as Hdepth; [|apply chain_overflow; lia].
  apply acyclic_is_dag.
  - apply endpoints_sources_known, chain_endpoints_known.
  - rewrite universe_endpoints_known by apply chain_endpoints_known.
    rewrite size_node_ids_unique by apply chain_unique_ids.
    rewrite chain_nodes_length. lia.
  - apply chain_acyclic.
Qed.

(** X16.  On the same chain with its nodes in the reverse order every
    top-level call of [has_cycle] finds its neighbour finished, and the
    call returns [True] at any depth that allows one call. *)
Theorem chain_reversed_needs_one depth m :
  check_is_dag (S depth) (reverse (chain_nodes m)) (chain_edges m) = Ret true.
Proof. apply chain_reversed_returns. Qed.
